(** * Psylogs dose log: a shallow embedding of [doselog.py]

    The development follows the source file top to bottom: the route
    registry ([ADMINISTRATION_METHODS], [ROUTE_ALIASES]), the two regular
    expressions of [User.parse_dose_string] run by a small backtracking
    matcher, the logging methods, the filter chain and the aggregate
    readers.  Python [str] values are modelled as lists of 8-bit characters
    read as the code points U+0000..U+00FF, Python [float] values as IEEE 754
    binary64 numbers ([spec_float] at precision 53), [print] as a list of
    output lines and [datetime.now()] as an explicit clock argument. *)

From Stdlib Require Import ZArith NArith List Ascii String Bool Lia SpecFloat.
From Stdlib Require Import Sorting.Sorted Sorting.Permutation.
From Stdlib Require QArith.
From stdpp Require Import base option gmap strings list.

Local Open Scope Z_scope.

(** ** Characters and the classes used by the patterns *)

Abbreviation str := (list ascii).

Definition code (c : ascii) : N := N_of_ascii c.

Definition in_range (lo hi : N) (c : ascii) : bool :=
  ((lo <=? code c) && (code c <=? hi))%N.

(** [\d] on a [str] pattern is the Unicode decimal-digit class; below U+0100
    it holds the ten ASCII digits only. *)
Definition is_digit (c : ascii) : bool := in_range 48 57 c.

(** [\s] and [str.strip()] both use [str.isspace]: TAB..CR, FS..US, SPACE,
    NEL (U+0085) and NBSP (U+00A0). *)
Definition is_space (c : ascii) : bool :=
  in_range 9 13 c || in_range 28 32 c
  || (code c =? 133)%N || (code c =? 160)%N.

(** [[a-zA-Z-]] *)
Definition is_alpha_hyphen (c : ascii) : bool :=
  in_range 97 122 c || in_range 65 90 c || (code c =? 45)%N.

(** [\w]: alphanumeric by [str.isalnum] or the underscore.  In the Latin-1
    supplement the alphanumerics are the feminine and masculine ordinal
    indicators, the superscripts 1-3, the micro sign, the three vulgar
    fractions and the letters U+00C0..U+00FF without the two operators. *)
Definition is_word (c : ascii) : bool :=
  in_range 48 57 c || in_range 65 90 c || in_range 97 122 c
  || (code c =? 95)%N
  || (code c =? 170)%N || (code c =? 178)%N || (code c =? 179)%N
  || (code c =? 181)%N || (code c =? 185)%N || (code c =? 186)%N
  || in_range 188 190 c
  || in_range 192 214 c || in_range 216 246 c || in_range 248 255 c.

(** [str.lower()] below U+0100: A..Z and the capital letters U+00C0..U+00DE
    (the multiplication sign apart) move up by 32. *)
Definition lower_char (c : ascii) : ascii :=
  if in_range 65 90 c || in_range 192 214 c || in_range 216 222 c
  then ascii_of_N (code c + 32)
  else c.

Definition lower (s : str) : str := map lower_char s.

(** [str.strip()] with no argument. *)
Fixpoint lstrip (s : str) : str :=
  match s with
  | c :: s' => if is_space c then lstrip s' else s
  | [] => []
  end.

Definition rstrip (s : str) : str := rev (lstrip (rev s)).

Definition strip (s : str) : str := rstrip (lstrip s).

(** ** The fragment of [re] the two patterns are written in *)

Inductive regex : Type :=
| Bol                              (* ^ *)
| Eol                              (* $ *)
| Cls (p : ascii -> bool)          (* one character of a class *)
| Lit (w : str)                    (* a literal word *)
| Cat (r1 r2 : regex)              (* r1 r2 *)
| Alt (r1 r2 : regex)              (* r1|r2 *)
| Opt (r : regex)                  (* r? , greedy *)
| Star (p : ascii -> bool)         (* [class]* , greedy *)
| Grp (i : nat) (r : regex).       (* capturing group number i *)

(** [[class]+], greedy: one character, then as many as possible. *)
Definition Plus (p : ascii -> bool) : regex := Cat (Cls p) (Star p).

Declare Scope regex_scope.
Delimit Scope regex_scope with re.
Bind Scope regex_scope with regex.
Infix "⋅" := Cat (at level 40, left associativity) : regex_scope.
Infix "∣" := Alt (at level 50, left associativity) : regex_scope.

(** A position in the subject: the number of characters consumed and the
    characters still ahead. *)
Record cursor : Type := Cursor { pos : nat; ahead : str }.

Abbreviation captures := (gmap nat str).

(** All the ways a greedy [[class]*] can stop, longest first: the number of
    characters taken and what is left. *)
Fixpoint star_splits (p : ascii -> bool) (s : str) : list (nat * str) :=
  match s with
  | c :: s' =>
      if p c
      then map (fun '(n, r) => (S n, r)) (star_splits p s') ++ [(O, s)]
      else [(O, s)]
  | [] => [(O, [])]
  end.

Fixpoint is_prefix (w s : str) : option str :=
  match w, s with
  | [], _ => Some s
  | a :: w', c :: s' => if Ascii.eqb a c then is_prefix w' s' else None
  | _ :: _, [] => None
  end.

Definition newline : ascii := ascii_of_N 10.

(** [exec r cur caps] lists, in the order a backtracking matcher tries them,
    every way [r] can match at [cur].  Without [re.MULTILINE], [^] holds at
    the start of the subject only and [$] at its end or just before a final
    newline. *)
Fixpoint exec (r : regex) (cur : cursor) (caps : captures)
  : list (cursor * captures) :=
  match r with
  | Bol => if Nat.eqb (pos cur) 0 then [(cur, caps)] else []
  | Eol =>
      match ahead cur with
      | [] => [(cur, caps)]
      | [c] => if Ascii.eqb c newline then [(cur, caps)] else []
      | _ => []
      end
  | Cls p =>
      match ahead cur with
      | c :: s' => if p c then [(Cursor (S (pos cur)) s', caps)] else []
      | [] => []
      end
  | Lit w =>
      match is_prefix w (ahead cur) with
      | Some s' => [(Cursor (pos cur + length w) s', caps)]
      | None => []
      end
  | Cat r1 r2 =>
      flat_map (fun '(cur', caps') => exec r2 cur' caps') (exec r1 cur caps)
  | Alt r1 r2 => exec r1 cur caps ++ exec r2 cur caps
  | Opt r1 => exec r1 cur caps ++ [(cur, caps)]
  | Star p =>
      map (fun '(n, s') => (Cursor (pos cur + n) s', caps))
          (star_splits p (ahead cur))
  | Grp i r1 =>
      map (fun '(cur', caps') =>
             (cur', <[i := take (pos cur' - pos cur) (ahead cur)]> caps'))
          (exec r1 cur caps)
  end.

(** [re.match(pattern, subject)]: the first way to match from position 0,
    or [None]. *)
Definition re_match (r : regex) (subject : str) : option captures :=
  snd <$> head (exec r (Cursor 0 subject) ∅).

(** [match.groups()] for a pattern of four groups.  A group that took no
    part would be [None] in Python; in both patterns below every group takes
    part in every match (lemma [exec_groups_set] and its two corollaries), so
    the default is never used. *)
Definition group (m : captures) (i : nat) : str := default [] (m !! i).

Definition groups4 (m : captures) : str * str * str * str :=
  (group m 1, group m 2, group m 3, group m 4).

Definition chars (x : string) : str := list_ascii_of_string x.

(** The standard pattern, token by token:
    [^ ( \d+ \.? \d* ) ( mg|ug|g|ml ) \s+ ( [a-zA-Z-]+ ) \s+ ( [a-zA-Z-]+ ) $] *)
Definition amount_re : regex :=
  (Plus is_digit ⋅ Opt (Lit (chars ".")) ⋅ Star is_digit)%re.

Definition unit_re : regex :=
  (Lit (chars "mg") ∣ Lit (chars "ug") ∣ Lit (chars "g") ∣ Lit (chars "ml"))%re.

Definition standard_pattern : regex :=
  (Bol ⋅ Grp 1 amount_re ⋅ Grp 2 unit_re ⋅ Plus is_space
   ⋅ Grp 3 (Plus is_alpha_hyphen) ⋅ Plus is_space
   ⋅ Grp 4 (Plus is_alpha_hyphen) ⋅ Eol)%re.

(** The verb pattern, token by token:
    [^ ( @ \w+ ) \s+ ( \d+ \.? \d* ) ( mg|ug|g|ml ) \s+ ( [a-zA-Z-]+ ) $] *)
Definition verb_pattern : regex :=
  (Bol ⋅ Grp 1 (Lit (chars "@") ⋅ Plus is_word) ⋅ Plus is_space
   ⋅ Grp 2 amount_re ⋅ Grp 3 unit_re ⋅ Plus is_space
   ⋅ Grp 4 (Plus is_alpha_hyphen) ⋅ Eol)%re.


(** ** Python floats: IEEE 754 binary64 *)

Definition prec : Z := 53.
Definition emax : Z := 1024.

Abbreviation float := spec_float.

Definition fadd : float -> float -> float := SFadd prec emax.
Definition fmul : float -> float -> float := SFmul prec emax.
Definition fdiv : float -> float -> float := SFdiv prec emax.
Definition flt : float -> float -> bool := SFltb.

(** An [int] operand of a float operation is converted first; the integers
    used here (0, 2, 1000 and list lengths) are far below [2^53], so the
    conversion is exact. *)
Definition float_of_int (z : Z) : float := binary_normalize prec emax z 0 false.

Definition fzero : float := S754_zero false.

(** [n / 10^k] rounded to the nearest binary64 number, ties to even: the
    value [float()] gives the decimal numeral whose digits, the point
    dropped, spell [n] and which has [k] digits after the point.  A numeral
    too large for binary64 gives [inf], as in CPython. *)
Definition float_of_decimal (n : Z) (k : nat) : float :=
  match n with
  | Z0 => fzero
  | _ =>
      let '(q, e, l) := SFdiv_core_binary prec emax n 0 (10 ^ Z.of_nat k) 0 in
      binary_round_aux prec emax false q e l
  end.

Definition digit_value (c : ascii) : Z := Z.of_N (code c) - 48.

(** The integer spelled by a run of digits, most significant first. *)
Definition digits_value (ds : str) : Z :=
  fold_left (fun acc c => 10 * acc + digit_value c) ds 0.

(** Splitting a numeral at its first point, if it has one. *)
Fixpoint split_point (a : str) : str * option str :=
  match a with
  | [] => ([], None)
  | c :: a' =>
      if Ascii.eqb c "."%char then ([], Some a')
      else let '(i, f) := split_point a' in (c :: i, f)
  end.

(** [float(text)] on the literals the amount group of either pattern can
    hold: digits, then possibly a point and more digits.  [None] stands for
    a text of another shape, which the patterns never capture (lemma
    [parse_dose_string_no_value_error]). *)
Definition py_float (text : str) : option float :=
  let '(i, f) := split_point text in
  let f := default [] f in
  if forallb is_digit i && forallb is_digit f && negb (Nat.eqb (length i) 0)
  then Some (float_of_decimal (digits_value (i ++ f)) (length f))
  else None.

(** ** The route registry *)

Local Open Scope string_scope.

Definition ADMINISTRATION_METHODS : list (string * list string) :=
  [ ("oral", ["oral"; "swallowed"; "chewed"; "@ate"]);
    ("insufflation",
       ["insufflation"; "snorted"; "intranasal"; "nasal"; "@sniffed"]);
    ("inhalation", ["inhalation"; "inhaled"; "smoked"; "vaporized"]);
    ("intravenous",
       ["intravenous-injection"; "intra-arterial"; "injected"; "@injected"]);
    ("intramuscular", ["intramuscular-injection"]);
    ("subcutaneous", ["subcutaneous-injection"; "intradermal"]);
    ("rectal", ["rectal"; "intrarectal"; "plugged"; "@boofed"]);
    ("transdermal", ["transdermal"; "dermal"; "applied"; "topical"]);
    ("sublingual", ["sublingual"; "dissolved"]);
    ("buccal", ["buccal"]);
    ("other",
       ["intravaginal"; "intrathecal"; "intraperitoneal"; "intraosseous";
        "intravitreal"; "intrapleural"; "intrapericardial"; "intravesical";
        "intralesional"; "ocular"; "otic"; "epidural"; "absorbed";
        "administered"]) ].

(** The dict comprehension visits the methods in order and, within one, its
    aliases in order; a later pair would overwrite an earlier one with the
    same key. *)
Definition ROUTE_ALIASES : gmap string string :=
  fold_left
    (fun d '(standard, aliases) =>
       fold_left (fun d alias => <[alias := standard]> d) aliases d)
    ADMINISTRATION_METHODS ∅.

(** ** Entries and users *)

(** A naive [datetime]. *)
Record datetime : Type := Datetime {
  year : Z; month : Z; day : Z;
  hour : Z; minute : Z; second : Z; microsecond : Z
}.

Record DoseEntry : Type := Build_DoseEntry {
  substance : string;
  amount : float;
  route : string;
  timestamp : datetime;
  unit : string
}.

(** A user holds its two lists by value: a user built with one list object
    passed for both fields, so that appending to the history also grows the
    view, is not described by this record. *)
Record User : Type := Build_User {
  name : string;
  entries : list DoseEntry;
  filtered_entries : list DoseEntry
}.

(** The exceptions that can travel through [log_dose_string]. *)
Inductive exn : Type :=
| DoseParsingError (msg : string)
| ValueError (msg : string).

Inductive result (A : Type) : Type :=
| Return (a : A)
| Raise (e : exn).
Arguments Return {A} a.
Arguments Raise {A} e.

Definition text (x : str) : string := string_of_list_ascii x.

(** ** [User.parse_dose_string] *)

Definition parse_dose_string (dose_string : string)
  : result (float * string * string * string) :=
  let subject := strip (chars dose_string) in
  (* Try standard pattern first *)
  match groups4 <$> re_match standard_pattern subject with
  | Some (amount, unit, substance, route) =>
      match ROUTE_ALIASES !! text route with
      | None =>
          Raise (DoseParsingError
                   ("Unknown route of administration: " ++ text route))
      | Some _ =>
          match py_float amount with
          | Some x => Return (x, text unit, text (lower substance), text route)
          | None => Raise (ValueError "could not convert string to float")
          end
      end
  | None =>
      (* Try verb pattern *)
      match groups4 <$> re_match verb_pattern subject with
      | Some (verb, amount, unit, substance) =>
          match ROUTE_ALIASES !! text verb with
          | None =>
              Raise (DoseParsingError ("Unknown verb command: " ++ text verb))
          | Some _ =>
              match py_float amount with
              | Some x =>
                  Return (x, text unit, text (lower substance), text verb)
              | None => Raise (ValueError "could not convert string to float")
              end
          end
      | None =>
          Raise (DoseParsingError
                   ("Invalid dose string format. Expected format: "
                    ++ "'amount[unit] substance route' or "
                    ++ "'@verb amount[unit] substance'"))
      end
  end.

(** ** [User.log_dose_string] *)

(** Convert units to mg if necessary. *)
Definition convert_units (unit : string) (amount : float) : float :=
  if String.eqb unit "ug" then fdiv amount (float_of_int 1000)
  else if String.eqb unit "g" then fmul amount (float_of_int 1000)
  else amount.

Definition exn_message (e : exn) : string :=
  match e with DoseParsingError msg | ValueError msg => msg end.

(** The body of the [try] block: the user with the entry appended, or the
    exception that left the block. *)
Definition log_dose_string_try (now : datetime) (dose_string : string)
    (self : User) : result User :=
  match parse_dose_string dose_string with
  | Raise e => Raise e
  | Return (amount, unit, substance, route_or_verb) =>
      (* Convert route alias to standard route *)
      match ROUTE_ALIASES !! route_or_verb with
      | Some standard_route =>
          if String.eqb standard_route ""
          then Raise (DoseParsingError
                        ("Unknown route or verb: " ++ route_or_verb))
          else
            let entry :=
              Build_DoseEntry substance (convert_units unit amount)
                              standard_route now "mg" in
            Return (Build_User (name self) (entries self ++ [entry])
                               (filtered_entries self))
      | None =>
          Raise (DoseParsingError ("Unknown route or verb: " ++ route_or_verb))
      end
  end.

(** The method: the user it returns and the lines it prints.  Both handlers
    report and return [self]; no exception leaves the method. *)
Definition log_dose_string (now : datetime) (dose_string : string)
    (self : User) : User * list string :=
  match log_dose_string_try now dose_string self with
  | Return self' => (self', [])
  | Raise (DoseParsingError msg) =>
      (self, ["Error parsing dose string: " ++ msg])
  | Raise e => (self, ["Unexpected error logging dose: " ++ exn_message e])
  end.

(** ** [User.log_dose] *)

Definition log_dose (now : datetime) (substance : string) (amount : float)
    (route : string) (self : User) : User * list string :=
  let known := bool_decide (is_Some (ROUTE_ALIASES !! route)) in
  let out :=
    if known then []
    else ["Warning: Unknown route '" ++ route ++ "', defaulting to 'other'"] in
  let route := if known then route else "other" in
  let standard_route := default "other" (ROUTE_ALIASES !! route) in
  (Build_User (name self)
              (entries self
               ++ [Build_DoseEntry substance amount standard_route now "mg"])
              (filtered_entries self),
   out).

(** ** The filter chain *)

Definition set_filtered (self : User) (view : list DoseEntry) : User :=
  Build_User (name self) (entries self) view.

(** [x in xs] on a tuple of strings. *)
Definition contains (xs : list string) (x : string) : bool :=
  existsb (String.eqb x) xs.

Definition only (substances : list string) (self : User) : User :=
  set_filtered self
    (List.filter (fun entry => contains substances (substance entry))
                 (entries self)).

Definition via (routes : list string) (self : User) : User :=
  set_filtered self
    (List.filter (fun entry => contains routes (route entry))
                 (filtered_entries self)).

(** The slice [l[start:]]: a negative [start] counts from the end, and the
    bound is clamped to the list. *)
Definition slice_from {A : Type} (start : Z) (l : list A) : list A :=
  let len := Z.of_nat (length l) in
  let i := (if start <? 0 then Z.max (start + len) 0 else Z.min start len)%Z in
  drop (Z.to_nat i) l.

Definition last (n : Z) (self : User) : User :=
  set_filtered self (slice_from (- n) (filtered_entries self)).

Definition from_year (y : Z) (self : User) : User :=
  set_filtered self
    (List.filter (fun entry => (year (timestamp entry) =? y)%Z) (entries self)).

(** Naive datetimes compare field by field, most significant first. *)
Definition datetime_key (d : datetime) : list Z :=
  [year d; month d; day d; hour d; minute d; second d; microsecond d].

Fixpoint lex_leb (a b : list Z) : bool :=
  match a, b with
  | x :: a', y :: b' => (x <? y)%Z || ((x =? y)%Z && lex_leb a' b')
  | [], _ => true
  | _ :: _, [] => false
  end.

Definition datetime_leb (a b : datetime) : bool :=
  lex_leb (datetime_key a) (datetime_key b).

Definition from_date_range (start_date end_date : datetime) (self : User)
  : User :=
  set_filtered self
    (List.filter
       (fun entry => datetime_leb start_date (timestamp entry)
                     && datetime_leb (timestamp entry) end_date)
       (entries self)).

(** ** The aggregate readers *)

(** [tally[entry.substance][entry.route] += entry.amount] on the nested
    [defaultdict]: a missing inner dict starts empty, a missing sum at 0.0. *)
Definition tally_add (tally : gmap string (gmap string float))
    (entry : DoseEntry) : gmap string (gmap string float) :=
  let inner := default ∅ (tally !! substance entry) in
  let old := default fzero (inner !! route entry) in
  <[substance entry := <[route entry := fadd old (amount entry)]> inner]> tally.

Definition tally_each (self : User) : gmap string (gmap string float) :=
  fold_left tally_add (filtered_entries self) ∅.

(** What a reader hands back: Python's [sum] starts from the [int] 0, so
    the total of no entries is an [int], any other total a [float]. *)
Inductive number : Type :=
| Int (z : Z)
| Float (x : float).

(** [sum] over floats, adding left to right from the integer 0.  (From
    CPython 3.12 on, [sum] also carries a compensation term for the rounding
    errors; on no element or a single one the result is the same.) *)
Definition py_sum (xs : list float) : number :=
  match xs with
  | [] => Int 0
  | x :: xs' => Float (fold_left fadd xs' (fadd (float_of_int 0) x))
  end.

Definition to_float (v : number) : float :=
  match v with Int z => float_of_int z | Float x => x end.

Definition amounts (view : list DoseEntry) : list float := map amount view.

Definition average_dose (self : User) : float :=
  match filtered_entries self with
  | [] => fzero
  | _ :: _ =>
      fdiv (to_float (py_sum (amounts (filtered_entries self))))
           (float_of_int (Z.of_nat (length (filtered_entries self))))
  end.

(** [max(view, key=timestamp)]: the first entry no later one exceeds. *)
Definition max_by_timestamp (first : DoseEntry) (others : list DoseEntry)
  : DoseEntry :=
  fold_left
    (fun best entry =>
       if datetime_leb (timestamp entry) (timestamp best) then best else entry)
    others first.

(** The proleptic Gregorian ordinal of a date, as [datetime.toordinal]. *)
Definition is_leap (y : Z) : bool :=
  ((y mod 4 =? 0) && (negb (y mod 100 =? 0) || (y mod 400 =? 0)))%Z.

Definition days_before_year (y : Z) : Z :=
  (let y := y - 1 in y * 365 + y / 4 - y / 100 + y / 400)%Z.

Definition DAYS_BEFORE_MONTH : list Z :=
  [0; 31; 59; 90; 120; 151; 181; 212; 243; 273; 304; 334]%Z.

Definition days_before_month (y m : Z) : Z :=
  (nth (Z.to_nat (m - 1)) DAYS_BEFORE_MONTH 0
   + (if (2 <? m) && is_leap y then 1 else 0))%Z.

Definition toordinal (d : datetime) : Z :=
  (days_before_year (year d) + days_before_month (year d) (month d) + day d)%Z.

(** [a - b] on naive datetimes: a [timedelta], held as its total number of
    microseconds. *)
Definition datetime_sub (a b : datetime) : Z :=
  (let secs d := second d + minute d * 60 + hour d * 3600 in
   ((toordinal a - toordinal b) * 86400 + (secs a - secs b)) * 1000000
   + (microsecond a - microsecond b))%Z.

(** [now] is the clock reading taken by the method. *)
Definition last_dose_time (now : datetime) (self : User) : option Z :=
  match filtered_entries self with
  | [] => None
  | first :: others =>
      let last_dose := max_by_timestamp first others in
      Some (datetime_sub now (timestamp last_dose))
  end.

(** [sorted] on floats.  [list.sort] is stable and compares with [<] only;
    on amounts that [<] orders, that is whenever none is a NaN, its result
    is the one of this stable insertion sort.  With a NaN among the amounts
    [list.sort] and this sort can arrange the list differently: the
    statements about the order of the result below assume there is none. *)
Fixpoint insort (x : float) (l : list float) : list float :=
  match l with
  | [] => [x]
  | y :: l' => if flt x y then x :: l else y :: insort x l'
  end.

Definition sorted (xs : list float) : list float :=
  fold_left (fun acc x => insort x acc) xs [].

Definition median_dose (self : User) : float :=
  match filtered_entries self with
  | [] => fzero
  | _ :: _ =>
      let doses := sorted (amounts (filtered_entries self)) in
      let n := length doses in
      let mid := (n / 2)%nat in
      if Nat.eqb (n mod 2) 0
      then fdiv (fadd (nth (mid - 1) doses fzero) (nth mid doses fzero))
                (float_of_int 2)
      else nth mid doses fzero
  end.

Definition total_dose (self : User) : number :=
  py_sum (amounts (filtered_entries self)).

(** ** Vocabulary of the statements *)

(** A call of the filter chain, and a chain of them run left to right. *)
Inductive filter_call : Type :=
| Only (substances : list string)
| Via (routes : list string)
| Last (n : Z)
| FromYear (y : Z)
| FromDateRange (start_date end_date : datetime).

Definition call (c : filter_call) (self : User) : User :=
  match c with
  | Only substances => only substances self
  | Via routes => via routes self
  | Last n => last n self
  | FromYear y => from_year y self
  | FromDateRange a b => from_date_range a b self
  end.

Definition chain (cs : list filter_call) (self : User) : User :=
  fold_left (fun u c => call c u) cs self.

(** Order and sign on floats, as Python's [<=] and [>] read them. *)
Definition fle (x y : float) : Prop := SFleb x y = true.

Definition is_nan (x : float) : bool :=
  match x with S754_nan => true | _ => false end.


Definition positive_amount (x : float) : Prop := flt fzero x = true.

Definition nonnegative_amount (x : float) : Prop := fle fzero x.

(** Zero, a positive finite number or plus infinity, read off the
    representation. *)
Definition nonneg_float (x : float) : bool :=
  match x with
  | S754_zero false | S754_infinity false | S754_finite false _ _ => true
  | _ => false
  end.

(** A reader's result that is the number zero, as an [int] or a [float]. *)
Definition is_zero (v : number) : Prop :=
  match v with
  | Int z => z = 0%Z
  | Float x => SFeqb x fzero = true
  end.

(** The tokens of the two grammars. *)
Definition all_in (p : ascii -> bool) (w : str) : Prop :=
  Forall (fun c => p c = true) w.

Definition run_of (p : ascii -> bool) (w : str) : Prop :=
  w <> [] /\ all_in p w.

Definition blank (w : str) : Prop := all_in is_space w.

(** A non-negative decimal numeral: digits, then possibly a point and
    further digits. *)
Inductive numeral : str -> str -> nat -> Prop :=
| numeral_int ds :
    run_of is_digit ds -> numeral ds ds 0
| numeral_frac ds fs :
    run_of is_digit ds -> all_in is_digit fs ->
    numeral (ds ++ chars "." ++ fs) (ds ++ fs) (length fs).

Definition unit_token (w : str) : Prop :=
  w = chars "mg" \/ w = chars "ug" \/ w = chars "g" \/ w = chars "ml".

(** The canonical route that owns an alias, as [ADMINISTRATION_METHODS]
    declares it. *)
Definition owns (canonical alias : string) : Prop :=
  exists aliases,
    In (canonical, aliases) ADMINISTRATION_METHODS /\ In alias aliases.

Definition alias_of (canonical alias : string) : bool :=
  bool_decide (ROUTE_ALIASES !! alias = Some canonical).

(** The first way a pattern matches at a cursor: the one a backtracking
    matcher commits to when what follows the pattern succeeds. *)
Definition first_way (r : regex) (cur : cursor) (caps : captures)
  : option (cursor * captures) :=
  head (exec r cur caps).

(** A greedy run of class [p] cannot go on into [rest]. *)
Definition stops (p : ascii -> bool) (rest : str) : Prop :=
  match rest with
  | [] => True
  | c :: _ => p c = false
  end.

(** The groups that take part in every match of a pattern, and the groups
    that occur in it at all. *)
Fixpoint sure_groups (r : regex) : list nat :=
  match r with
  | Cat r1 r2 => sure_groups r1 ++ sure_groups r2
  | Grp i r1 => i :: sure_groups r1
  | _ => []
  end.

Fixpoint all_groups (r : regex) : list nat :=
  match r with
  | Cat r1 r2 | Alt r1 r2 => all_groups r1 ++ all_groups r2
  | Opt r1 => all_groups r1
  | Grp i r1 => i :: all_groups r1
  | _ => []
  end.

(** The words a pattern can consume, the anchors consuming nothing. *)
Fixpoint lang (r : regex) (w : str) : Prop :=
  match r with
  | Bol | Eol => w = []
  | Cls p => exists c, w = [c] /\ p c = true
  | Lit v => w = v
  | Cat r1 r2 =>
      exists w1 w2, w = (w1 ++ w2)%list /\ lang r1 w1 /\ lang r2 w2
  | Alt r1 r2 => lang r1 w \/ lang r2 w
  | Opt r1 => w = [] \/ lang r1 w
  | Star p => all_in p w
  | Grp _ r1 => lang r1 w
  end.

(** Every way [r] matches leaves in group [i] a word with property [P]. *)
Definition captures_in (r : regex) (i : nat) (P : str -> Prop) : Prop :=
  forall cur caps cur' caps',
    In (cur', caps') (exec r cur caps) ->
    exists w, caps' !! i = Some w /\ P w.

(** The user with one entry appended, as the two logging methods leave it. *)
Definition appended (self : User) (entry : DoseEntry) : User :=
  Build_User (name self) (entries self ++ [entry]) (filtered_entries self).

(** Fixed values for the examples. *)
Definition noon : datetime := Datetime 2024 5 17 12 0 0 0.

Definition nobody : User := Build_User "sernyl" [] [].

Definition dose (sub : string) (mg : Z) (rt : string) : DoseEntry :=
  Build_DoseEntry sub (float_of_int mg) rt noon "mg".

(** ** Vocabulary of the median *)



(** A float with the sign of a zero forgotten. *)
Definition unsigned_zero (x : float) : float :=
  match x with S754_zero _ => fzero | _ => x end.




(** ** Vocabulary of the further properties *)

(** The canonical route names: the keys of [ADMINISTRATION_METHODS]. *)
Definition canonical_routes : list string := map fst ADMINISTRATION_METHODS.

(** [owns], decided. *)
Definition owns_b (canonical alias : string) : bool :=
  existsb
    (fun ca => String.eqb canonical (fst ca)
               && existsb (String.eqb alias) (snd ca))
    ADMINISTRATION_METHODS.

(** One call on a user: either logging method or a filter.  What the call
    prints is dropped. *)
Inductive operation : Type :=
| LogString (now : datetime) (dose_string : string)
| LogDose (now : datetime) (substance : string) (amount : float)
    (route : string)
| Filter (c : filter_call).

Definition perform (op : operation) (self : User) : User :=
  match op with
  | LogString now dose_string => fst (log_dose_string now dose_string self)
  | LogDose now substance amount route =>
      fst (log_dose now substance amount route self)
  | Filter c => call c self
  end.

Definition session (ops : list operation) (self : User) : User :=
  fold_left (fun u op => perform op u) ops self.

Definition is_log (op : operation) : bool :=
  match op with Filter _ => false | _ => true end.

(** The bounds [datetime] puts on the fields below the year (the day is
    bounded by 31 here, whatever the month). *)
Definition valid_datetime (d : datetime) : Prop :=
  (1 <= month d <= 12 /\ 1 <= day d <= 31 /\ 0 <= hour d <= 23
   /\ 0 <= minute d <= 59 /\ 0 <= second d <= 59
   /\ 0 <= microsecond d <= 999999)%Z.

(** The first and the last instant of a calendar year. *)
Definition year_start (y : Z) : datetime := Datetime y 1 1 0 0 0 0.
Definition year_end (y : Z) : datetime := Datetime y 12 31 23 59 59 999999.

(** [tally[substance][route]], or [None] when either key is missing. *)
Definition tally_lookup (tally : gmap string (gmap string float))
    (sub rt : string) : option float :=
  inner ← tally !! sub; inner !! rt.

(** The entries of a view logged for one substance by one route. *)
Definition matching (sub rt : string) (view : list DoseEntry)
  : list DoseEntry :=
  List.filter
    (fun e => String.eqb (substance e) sub && String.eqb (route e) rt) view.

(** Adding amounts one by one onto a sum that may not have been started. *)
Definition add_onto (start : option float) (xs : list float) : option float :=
  fold_left (fun acc x => Some (fadd (default fzero acc) x)) xs start.

(** [[a-z-]] *)
Definition is_lower_hyphen (c : ascii) : bool :=
  in_range 97 122 c || (code c =? 45)%N.

(** A string of the standard grammar, token by token, and one of the verb
    grammar. *)
Definition standard_shape (subject txt w ws1 sub ws2 rt : str) : Prop :=
  subject = (txt ++ w ++ ws1 ++ sub ++ ws2 ++ rt)%list
  /\ (exists ds k, numeral txt ds k) /\ unit_token w
  /\ run_of is_space ws1 /\ run_of is_alpha_hyphen sub
  /\ run_of is_space ws2 /\ run_of is_alpha_hyphen rt.

Definition verb_shape (subject vb ws1 txt w ws2 sub : str) : Prop :=
  subject = ((chars "@" ++ vb) ++ ws1 ++ txt ++ w ++ ws2 ++ sub)%list
  /\ run_of is_word vb /\ run_of is_space ws1
  /\ (exists ds k, numeral txt ds k) /\ unit_token w
  /\ run_of is_space ws2 /\ run_of is_alpha_hyphen sub.

(** * Properties *)

Local Open Scope list_scope.

(** ** The filter chain *)

Section FilterChain.

Implicit Types (u : User) (e : DoseEntry) (xs : list string).

Lemma contains_elem_of xs (x : string) : contains xs x = true <-> x ∈ xs.
Proof.
  unfold contains. rewrite existsb_exists. split.
  - intros (y & Hy & Heq). apply String.eqb_eq in Heq. subst y.
    by apply list_elem_of_In.
  - intros Hx. exists x. split; [by apply list_elem_of_In|].
    apply String.eqb_refl.
Qed.

Lemma filter_filter_and {A : Type} (f g : A -> bool) (l : list A) :
  List.filter g (List.filter f l) = List.filter (fun a => f a && g a) l.
Proof.
  induction l as [|a l IH]; simpl; [done|].
  destruct (f a); simpl; [destruct (g a)|]; by rewrite IH.
Qed.

Lemma entries_call c u : entries (call c u) = entries u.
Proof. by destruct c. Qed.

Lemma entries_chain cs u : entries (chain cs u) = entries u.
Proof.
  revert u. induction cs as [|c cs IH]; intros u; simpl; [done|].
  unfold chain in IH. by rewrite IH, entries_call.
Qed.

Lemma name_chain cs u : name (chain cs u) = name u.
Proof.
  revert u. induction cs as [|c cs IH]; intros u; simpl; [done|].
  unfold chain in IH. rewrite IH. by destruct c.
Qed.

End FilterChain.

(** C4. [only(S...).via(R...)] leaves in the working view exactly the
    entries of the full history whose substance is in [S] and whose route is
    in [R], in history order, and does not touch the history: [only] filters
    the full history, [via] then filters the view [only] left. *)
Theorem only_via_both (S R : list string) (u : User) :
  filtered_entries (only S u)
    = List.filter (fun e => contains S (substance e)) (entries u)
  /\ filtered_entries (via R (only S u))
    = List.filter (fun e => contains R (route e)) (filtered_entries (only S u))
  /\ filtered_entries (via R (only S u))
    = List.filter
        (fun e => bool_decide (substance e ∈ S /\ route e ∈ R)) (entries u)
  /\ entries (via R (only S u)) = entries u.
Proof.
  repeat split; try reflexivity.
  unfold via, only, set_filtered; simpl.
  rewrite filter_filter_and. apply List.filter_ext. intros e.
  destruct (contains S (substance e)) eqn:HS, (contains R (route e)) eqn:HR;
    simpl; symmetry.
  - apply bool_decide_eq_true.
    split; by apply contains_elem_of.
  - apply bool_decide_eq_false. intros [_ H%contains_elem_of]. congruence.
  - apply bool_decide_eq_false. intros [H%contains_elem_of _]. congruence.
  - apply bool_decide_eq_false. intros [H%contains_elem_of _]. congruence.
Qed.

(** C5. [from_year(Y)] after any chain of filter calls sets the working view
    to the entries of the full history stamped in year [Y], in history
    order: whatever the earlier calls had narrowed is discarded. *)
Theorem from_year_discards_narrowing (cs : list filter_call) (Y : Z) (u : User) :
  filtered_entries (from_year Y (chain cs u))
    = List.filter (fun e => bool_decide (year (timestamp e) = Y)) (entries u)
  /\ entries (from_year Y (chain cs u)) = entries u.
Proof.
  split.
  - unfold from_year, set_filtered; simpl. rewrite entries_chain.
    apply List.filter_ext. intros e.
    destruct (Z.eqb_spec (year (timestamp e)) Y) as [Heq|Hne].
    + by rewrite bool_decide_eq_true_2.
    + by rewrite bool_decide_eq_false_2.
  - unfold from_year, set_filtered; simpl. apply entries_chain.
Qed.

(** ** [last] *)

Lemma slice_from_neg {A : Type} (n : Z) (l : list A) :
  (0 < n)%Z -> slice_from (- n) l = drop (length l - Z.to_nat n) l.
Proof.
  intros Hn. unfold slice_from.
  destruct (Z.ltb_spec (- n) 0) as [_|?]; [|lia].
  f_equal. lia.
Qed.

(** For a positive [n] the slice is the tail of [n] entries, or the whole
    view when it has fewer. *)
Lemma last_positive (n : Z) (u : User) :
  (0 < n)%Z ->
  filtered_entries (last n u)
    = drop (length (filtered_entries u) - Z.to_nat n) (filtered_entries u)
  /\ entries (last n u) = entries u.
Proof. intros Hn. split; [apply (slice_from_neg n _ Hn)|reflexivity]. Qed.

Lemma last_zero (u : User) : filtered_entries (last 0 u) = filtered_entries u.
Proof. unfold last, slice_from; simpl. by destruct (filtered_entries u). Qed.

(** C7. [last(0)] does not empty the working view: [-0] is [0], and the
    slice from index 0 is the whole list.  Here a view of two entries is
    left as it was. *)
Theorem last_zero_keeps_the_view :
  let view := [dose "lsd" 1 "oral"; dose "mdma" 100 "oral"] in
  filtered_entries (last 0 (Build_User "sernyl" view view)) = view
  /\ filtered_entries (last 0 (Build_User "sernyl" view view)) <> [].
Proof. split; [reflexivity|discriminate]. Qed.

(** ** The readers on an empty view *)

(** C8. On an empty working view [tally_each] is the empty mapping,
    [average_dose] and [median_dose] are [0.0], [total_dose] is [0] and
    [last_dose_time] is [None]; the readers are total functions, so none
    raises. *)
Theorem readers_on_empty_view (now : datetime) (u : User) :
  filtered_entries u = [] ->
  tally_each u = ∅
  /\ average_dose u = fzero
  /\ median_dose u = fzero
  /\ total_dose u = Int 0 /\ is_zero (total_dose u)
  /\ is_zero (Float (average_dose u)) /\ is_zero (Float (median_dose u))
  /\ last_dose_time now u = None.
Proof.
  intros Hempty.
  unfold tally_each, average_dose, median_dose, total_dose, last_dose_time.
  rewrite Hempty. simpl. repeat split.
Qed.

Lemma readers_on_empty_view_witness :
  filtered_entries nobody = []
  /\ tally_each nobody = ∅
  /\ total_dose nobody = Int 0
  /\ last_dose_time noon nobody = None.
Proof.
  split; [reflexivity|].
  pose proof (readers_on_empty_view noon nobody eq_refl) as H.
  tauto.
Defined.

(** ** [log_dose] and the alias table *)




(** ** The median *)

Section FloatOrder.

Implicit Types x y : float.





End FloatOrder.

Section Sorting.

Lemma insort_perm x l : Permutation (x :: l) (insort x l).
Proof.
  induction l as [|y l IH]; simpl; [done|].
  destruct (flt x y); [done|].
  rewrite perm_swap. by constructor.
Qed.

Lemma fold_insort_perm xs acc :
  Permutation (xs ++ acc) (fold_left (fun acc x => insort x acc) xs acc).
Proof.
  revert acc. induction xs as [|x xs IH]; intros acc; simpl; [done|].
  rewrite <- IH. rewrite <- insort_perm. apply Permutation_middle.
Qed.

Lemma sorted_perm xs : Permutation xs (sorted xs).
Proof.
  unfold sorted. rewrite <- fold_insort_perm. by rewrite app_nil_r.
Qed.

Lemma sorted_length xs : length (sorted xs) = length xs.
Proof. symmetry. apply Permutation_length, sorted_perm. Qed.





End Sorting.

(** [median_dose] reads the amounts of the view only. *)
Lemma median_dose_amounts (u : User) :
  median_dose u =
    match amounts (filtered_entries u) with
    | [] => fzero
    | _ :: _ =>
        let doses := sorted (amounts (filtered_entries u)) in
        let n := length doses in
        if Nat.eqb (n mod 2) 0
        then fdiv (fadd (nth (n / 2 - 1) doses fzero) (nth (n / 2) doses fzero))
                  (float_of_int 2)
        else nth (n / 2) doses fzero
    end.
Proof. unfold median_dose. by destruct (filtered_entries u). Qed.

Section FloatPreorder.

Implicit Types x y z : float.









End FloatPreorder.

Section SortedUnique.

Context {A : Type} (R : A -> A -> Prop).


End SortedUnique.

Section MedianOfSorted.

Implicit Types (xs doses : list float).




Lemma unsigned_zero_finite y s m e :
  unsigned_zero y = S754_finite s m e -> y = S754_finite s m e.
Proof. by destruct y. Qed.





End MedianOfSorted.

(** ** The matcher on the strings of the two grammars *)

Section Matcher.

Implicit Types (r : regex) (p : ascii -> bool) (w rest : str) (n : nat).

Lemma head_app_Some {A : Type} (l1 l2 : list A) (x : A) :
  head l1 = Some x -> head (l1 ++ l2) = Some x.
Proof. by destruct l1. Qed.

Lemma first_cat r1 r2 cur caps cur1 caps1 res :
  first_way r1 cur caps = Some (cur1, caps1) ->
  first_way r2 cur1 caps1 = Some res ->
  first_way (Cat r1 r2) cur caps = Some res.
Proof.
  unfold first_way. simpl. intros H1 H2.
  destruct (exec r1 cur caps) as [|[c1 m1] l]; simplify_eq/=.
  by apply head_app_Some.
Qed.

Lemma first_alt_l r1 r2 cur caps res :
  first_way r1 cur caps = Some res -> first_way (Alt r1 r2) cur caps = Some res.
Proof. apply head_app_Some. Qed.

Lemma first_alt_r r1 r2 cur caps res :
  exec r1 cur caps = [] ->
  first_way r2 cur caps = Some res -> first_way (Alt r1 r2) cur caps = Some res.
Proof. unfold first_way. simpl. by intros ->. Qed.

Lemma first_opt r cur caps res :
  first_way r cur caps = Some res -> first_way (Opt r) cur caps = Some res.
Proof. apply head_app_Some. Qed.

Lemma first_grp i r n w rest caps caps' :
  first_way r (Cursor n (w ++ rest)) caps
    = Some (Cursor (n + length w) rest, caps') ->
  first_way (Grp i r) (Cursor n (w ++ rest)) caps
    = Some (Cursor (n + length w) rest, <[i := w]> caps').
Proof.
  unfold first_way. simpl. intros H.
  destruct (exec r _ caps) as [|[c1 m1] l]; simplify_eq/=.
  do 3 f_equal. replace (n + length w - n)%nat with (length w) by lia.
  apply take_app_length.
Qed.

Lemma star_splits_head p w rest :
  all_in p w -> stops p rest ->
  head (star_splits p (w ++ rest)) = Some (length w, rest).
Proof.
  intros Hw Hrest. induction Hw as [|c w Hc Hw IH]; simpl.
  - destruct rest as [|c rest]; [done|]. simpl in *. by rewrite Hrest.
  - rewrite Hc. apply head_app_Some.
    destruct (star_splits p (w ++ rest)) as [|[k r'] l]; by simplify_eq/=.
Qed.

Lemma first_star p n w rest caps :
  all_in p w -> stops p rest ->
  first_way (Star p) (Cursor n (w ++ rest)) caps
    = Some (Cursor (n + length w) rest, caps).
Proof.
  intros Hw Hrest. unfold first_way. simpl.
  pose proof (star_splits_head p w rest Hw Hrest) as H.
  destruct (star_splits p (w ++ rest)) as [|[k r'] l]; by simplify_eq/=.
Qed.

Lemma first_plus p n w rest caps :
  run_of p w -> stops p rest ->
  first_way (Plus p) (Cursor n (w ++ rest)) caps
    = Some (Cursor (n + length w) rest, caps).
Proof.
  intros [Hne Hw] Hrest. destruct Hw as [|c w Hc Hw]; [done|].
  eapply first_cat.
  - unfold first_way. simpl. by rewrite Hc.
  - rewrite (first_star p (S n) w rest caps Hw Hrest). simpl.
    do 3 f_equal. lia.
Qed.

Lemma first_lit v n rest caps :
  first_way (Lit v) (Cursor n (v ++ rest)) caps
    = Some (Cursor (n + length v) rest, caps).
Proof.
  unfold first_way. simpl.
  assert (H : is_prefix v (v ++ rest) = Some rest).
  { induction v as [|c v IH]; simpl; [done|]. by rewrite Ascii.eqb_refl. }
  by rewrite H.
Qed.

Lemma stops_run p q w rest :
  (forall c, q c = true -> p c = false) -> run_of q w -> stops p (w ++ rest).
Proof.
  intros Hpq [Hne Hw]. destruct Hw as [|c w Hc Hw]; [done|].
  simpl. by apply Hpq.
Qed.

(** The classes of neighbouring tokens are disjoint. *)
Lemma space_not_alpha c : is_space c = true -> is_alpha_hyphen c = false.
Proof. destruct c as [[] [] [] [] [] [] [] []]; by vm_compute. Qed.

Lemma alpha_not_space c : is_alpha_hyphen c = true -> is_space c = false.
Proof. destruct c as [[] [] [] [] [] [] [] []]; by vm_compute. Qed.

Lemma space_not_word c : is_space c = true -> is_word c = false.
Proof. destruct c as [[] [] [] [] [] [] [] []]; by vm_compute. Qed.

Lemma digit_not_space c : is_digit c = true -> is_space c = false.
Proof. destruct c as [[] [] [] [] [] [] [] []]; by vm_compute. Qed.

Lemma digit_not_point c : is_digit c = true -> Ascii.eqb "." c = false.
Proof. destruct c as [[] [] [] [] [] [] [] []]; by vm_compute. Qed.

Lemma unit_stops_digit w rest :
  unit_token w -> stops is_digit (w ++ rest) /\ stops (Ascii.eqb ".") (w ++ rest).
Proof. by intros [->|[->|[->| ->]]]. Qed.

Lemma first_unit w n rest caps :
  unit_token w ->
  first_way unit_re (Cursor n (w ++ rest)) caps
    = Some (Cursor (n + length w) rest, caps).
Proof. by intros [->|[->|[->| ->]]]. Qed.

Lemma first_amount txt ds k n rest caps :
  numeral txt ds k -> stops is_digit rest -> stops (Ascii.eqb ".") rest ->
  first_way amount_re (Cursor n (txt ++ rest)) caps
    = Some (Cursor (n + length txt) rest, caps).
Proof.
  intros Hnum Hd Hp. unfold amount_re. destruct Hnum as [ds Hds|ds fs Hds Hfs].
  - eapply first_cat; [eapply first_cat|].
    + by apply first_plus.
    + unfold first_way. simpl.
      destruct rest as [|c rest]; simpl; [done|].
      simpl in Hp. by rewrite Hp.
    + rewrite (first_star is_digit _ [] rest caps); [|constructor|done].
      simpl. do 3 f_equal. lia.
  - rewrite <- !app_assoc.
    eapply first_cat; [eapply first_cat|].
    + apply first_plus; [done|]. simpl. reflexivity.
    + apply first_opt, first_lit.
    + rewrite (first_star is_digit _ fs rest caps Hfs Hd).
      rewrite !length_app. simpl. do 3 f_equal. lia.
Qed.

End Matcher.

Section Grammars.

Implicit Types (w rest lead trail core txt ds sub rt vb : str).

Lemma lstrip_blank lead core :
  blank lead -> stops is_space core -> lstrip (lead ++ core) = core.
Proof.
  intros Hlead Hcore. induction Hlead as [|c lead Hc _ IH]; simpl.
  - destruct core as [|c core]; [done|]. simpl in *. by rewrite Hcore.
  - by rewrite Hc.
Qed.

Lemma strip_padded lead core trail :
  blank lead -> blank trail ->
  stops is_space (core ++ trail) -> stops is_space (rev core) ->
  strip (lead ++ core ++ trail) = core.
Proof.
  intros Hlead Htrail Hfirst Hlast. unfold strip, rstrip.
  rewrite lstrip_blank by done.
  rewrite rev_app_distr, lstrip_blank; [apply rev_involutive| |done].
  by apply Forall_rev.
Qed.

Lemma stops_rev_run p q w rest :
  (forall c, q c = true -> p c = false) -> run_of q w ->
  stops p (rev (rest ++ w)).
Proof.
  intros Hpq [Hne Hw]. rewrite rev_app_distr.
  apply (stops_run p q); [done|]. split.
  - intros H. apply Hne. by rewrite <- (rev_involutive w), H.
  - by apply Forall_rev.
Qed.

Lemma numeral_run txt ds k : numeral txt ds k -> exists c t, txt = c :: t /\ is_digit c = true.
Proof.
  intros [? [Hne H]|? ? [Hne H] _]; destruct H as [|c t Hc _]; try done;
    by exists c; eexists.
Qed.

Lemma all_in_forallb p w : all_in p w -> forallb p w = true.
Proof. induction 1 as [|c w' Hc _ IH]; simpl; [done|]. by rewrite Hc. Qed.

Lemma split_point_digits ds rest :
  all_in is_digit ds ->
  split_point (ds ++ rest)
    = (ds ++ fst (split_point rest), snd (split_point rest)).
Proof.
  induction 1 as [|c ds Hc _ IH]; simpl; [by destruct (split_point rest)|].
  assert (Ascii.eqb c "." = false) as ->.
  { rewrite Ascii.eqb_sym. by apply digit_not_point. }
  by rewrite IH.
Qed.

(** [float()] reads every numeral of the grammar. *)
Lemma py_float_numeral txt ds k :
  numeral txt ds k ->
  py_float txt = Some (float_of_decimal (digits_value ds) k).
Proof.
  intros [ds' [Hne Hds]|ds' fs [Hne Hds] Hfs]; unfold py_float.
  - rewrite <- (app_nil_r ds') at 1. rewrite split_point_digits by done.
    simpl. rewrite !app_nil_r, all_in_forallb by done. simpl.
    by destruct ds'.
  - rewrite split_point_digits by done. simpl. rewrite app_nil_r.
    rewrite !all_in_forallb by done. simpl. by destruct ds'.
Qed.

Lemma chars_text w : chars (text w) = w.
Proof. apply list_ascii_of_string_of_list_ascii. Qed.

(** The standard pattern takes a string of the standard grammar whole, at
    its first attempt, and its groups are the four tokens. *)
Lemma standard_pattern_first txt ds k w ws1 sub ws2 rt :
  numeral txt ds k -> unit_token w ->
  run_of is_space ws1 -> run_of is_alpha_hyphen sub ->
  run_of is_space ws2 -> run_of is_alpha_hyphen rt ->
  exists n,
    first_way standard_pattern
      (Cursor 0 (txt ++ w ++ ws1 ++ sub ++ ws2 ++ rt ++ [])) ∅
    = Some (Cursor n [],
            <[4%nat := rt]> (<[3%nat := sub]> (<[2%nat := w]> (<[1%nat := txt]> ∅)))).
Proof.
  intros Hnum Hw Hws1 Hsub Hws2 Hrt. eexists.
  unfold standard_pattern.
  eapply first_cat; [eapply first_cat; [eapply first_cat; [eapply first_cat;
    [eapply first_cat; [eapply first_cat; [eapply first_cat|]|]|]|]|]|].
  - reflexivity.
  - apply first_grp. eapply first_amount; [done|..];
      by apply (unit_stops_digit w).
  - by apply first_grp, first_unit.
  - apply first_plus; [done|].
    apply (stops_run _ is_alpha_hyphen); [apply alpha_not_space|done].
  - apply first_grp, first_plus; [done|].
    apply (stops_run _ is_space); [apply space_not_alpha|done].
  - apply first_plus; [done|].
    apply (stops_run _ is_alpha_hyphen); [apply alpha_not_space|done].
  - by apply first_grp, first_plus.
  - reflexivity.
Qed.

Lemma standard_pattern_groups txt ds k w ws1 sub ws2 rt :
  numeral txt ds k -> unit_token w ->
  run_of is_space ws1 -> run_of is_alpha_hyphen sub ->
  run_of is_space ws2 -> run_of is_alpha_hyphen rt ->
  groups4 <$> re_match standard_pattern (txt ++ w ++ ws1 ++ sub ++ ws2 ++ rt)
    = Some (txt, w, sub, rt).
Proof.
  intros Hnum Hw Hws1 Hsub Hws2 Hrt.
  destruct (standard_pattern_first txt ds k w ws1 sub ws2 rt) as [n H];
    try done.
  rewrite app_nil_r in H. unfold re_match. unfold first_way in H.
  by rewrite H.
Qed.

End Grammars.

Section VerbGrammar.

Implicit Types (w rest txt ds sub vb : str).

(** The verb pattern on a string of the verb grammar. *)
Lemma verb_pattern_first vb ws1 txt ds k w ws2 sub :
  run_of is_word vb -> run_of is_space ws1 ->
  numeral txt ds k -> unit_token w ->
  run_of is_space ws2 -> run_of is_alpha_hyphen sub ->
  exists n,
    first_way verb_pattern
      (Cursor 0 ((chars "@" ++ vb) ++ ws1 ++ txt ++ w ++ ws2 ++ sub ++ [])) ∅
    = Some (Cursor n [],
            <[4%nat := sub]> (<[3%nat := w]> (<[2%nat := txt]>
              (<[1%nat := chars "@" ++ vb]> ∅)))).
Proof.
  intros Hvb Hws1 Hnum Hw Hws2 Hsub. eexists.
  destruct (numeral_run txt ds k Hnum) as (c & t & -> & Hc).
  unfold verb_pattern.
  eapply first_cat; [eapply first_cat; [eapply first_cat; [eapply first_cat;
    [eapply first_cat; [eapply first_cat; [eapply first_cat|]|]|]|]|]|].
  - reflexivity.
  - apply first_grp. rewrite <- app_assoc.
    eapply first_cat; [apply first_lit|].
    rewrite (first_plus is_word _ vb); [|done|].
    + rewrite length_app. simpl. do 3 f_equal.
    + apply (stops_run _ is_space); [apply space_not_word|done].
  - apply first_plus; [done|]. simpl. by apply digit_not_space.
  - apply first_grp. eapply first_amount; [done|..];
      by apply (unit_stops_digit w).
  - by apply first_grp, first_unit.
  - apply first_plus; [done|].
    apply (stops_run _ is_alpha_hyphen); [apply alpha_not_space|done].
  - by apply first_grp, first_plus.
  - reflexivity.
Qed.

Lemma verb_pattern_groups vb ws1 txt ds k w ws2 sub :
  run_of is_word vb -> run_of is_space ws1 ->
  numeral txt ds k -> unit_token w ->
  run_of is_space ws2 -> run_of is_alpha_hyphen sub ->
  groups4 <$>
    re_match verb_pattern ((chars "@" ++ vb) ++ ws1 ++ txt ++ w ++ ws2 ++ sub)
    = Some (chars "@" ++ vb, txt, w, sub).
Proof.
  intros Hvb Hws1 Hnum Hw Hws2 Hsub.
  destruct (verb_pattern_first vb ws1 txt ds k w ws2 sub) as [n H];
    try done.
  rewrite app_nil_r in H. unfold re_match. unfold first_way in H.
  by rewrite H.
Qed.

(** The standard pattern wants a digit first, so it gives up at once on a
    string of the verb grammar and the verb pattern gets its turn. *)
Lemma standard_pattern_at_sign rest :
  re_match standard_pattern (chars "@" ++ rest) = None.
Proof. reflexivity. Qed.

End VerbGrammar.

(** ** Every way the matcher finds is a match *)

Section Soundness.

Implicit Types (r : regex) (cur : cursor) (caps : captures) (w : str).

Lemma exec_caps_mono r cur caps cur' caps' i :
  In (cur', caps') (exec r cur caps) ->
  is_Some (caps !! i) -> is_Some (caps' !! i).
Proof.
  revert cur caps cur' caps'.
  induction r as [| |p|v|r1 IH1 r2 IH2|r1 IH1 r2 IH2|r1 IH1|p|j r1 IH1];
    intros cur caps cur' caps'; simpl.
  - destruct (Nat.eqb _ _); simpl; [|done]. by intros [[= <- <-]|[]].
  - destruct (ahead cur) as [|c [|c' t]]; simpl; try done.
    + by intros [[= <- <-]|[]].
    + destruct (Ascii.eqb c newline); simpl; [|done].
      by intros [[= <- <-]|[]].
  - destruct (ahead cur) as [|c t]; simpl; [done|].
    destruct (p c); simpl; [|done]. by intros [[= <- <-]|[]].
  - destruct (is_prefix v (ahead cur)); simpl; [|done].
    by intros [[= <- <-]|[]].
  - intros ([c1 m1] & H1 & H2)%in_flat_map Hi. eauto.
  - intros [H|H]%in_app_iff; eauto.
  - intros [H|[[= <- <-]|[]]]%in_app_iff; eauto.
  - intros ([n t] & [= <- <-] & _)%in_map_iff. done.
  - intros ([c1 m1] & [= <- <-] & H)%in_map_iff Hi.
    apply lookup_insert_is_Some. destruct (decide (j = i)); eauto.
Qed.

Lemma exec_groups_set r cur caps cur' caps' i :
  In (cur', caps') (exec r cur caps) ->
  In i (sure_groups r) -> is_Some (caps' !! i).
Proof.
  revert cur caps cur' caps'.
  induction r as [| |p|v|r1 IH1 r2 IH2|r1 IH1 r2 IH2|r1 IH1|p|j r1 IH1];
    intros cur caps cur' caps'; simpl; try done.
  - intros ([c1 m1] & H1 & H2)%in_flat_map [Hi|Hi]%in_app_iff.
    + eapply exec_caps_mono; eauto.
    + eauto.
  - intros ([c1 m1] & [= <- <-] & H)%in_map_iff Hi.
    apply lookup_insert_is_Some. destruct (decide (j = i)); [by left|right].
    split; [done|]. destruct Hi as [?|Hi]; [done|]. eauto.
Qed.

Lemma re_match_first r subject m :
  re_match r subject = Some m ->
  exists cur', In (cur', m) (exec r (Cursor 0 subject) ∅).
Proof.
  unfold re_match.
  destruct (exec r (Cursor 0 subject) ∅) as [|[c m'] l]; [done|].
  intros [= <-]. exists c. by left.
Qed.

Lemma re_match_groups_set r subject m i :
  re_match r subject = Some m -> In i (sure_groups r) -> is_Some (m !! i).
Proof.
  intros [cur' H]%re_match_first Hi. by apply (exec_groups_set r _ _ _ _ i) in H.
Qed.

Lemma standard_pattern_groups_set subject m :
  re_match standard_pattern subject = Some m ->
  Forall (fun i => is_Some (m !! i)) [1; 2; 3; 4]%nat.
Proof.
  intros H. repeat constructor;
    apply (re_match_groups_set _ _ _ _ H); simpl; tauto.
Qed.

Lemma verb_pattern_groups_set subject m :
  re_match verb_pattern subject = Some m ->
  Forall (fun i => is_Some (m !! i)) [1; 2; 3; 4]%nat.
Proof.
  intros H. repeat constructor;
    apply (re_match_groups_set _ _ _ _ H); simpl; tauto.
Qed.

(** What a way of matching consumes is a word of the pattern's language,
    and the cursor moves past exactly that word. *)
Lemma star_splits_sound p s n t :
  In (n, t) (star_splits p s) ->
  exists w, s = w ++ t /\ n = length w /\ all_in p w.
Proof.
  revert n t. induction s as [|c s IH]; intros n t; simpl.
  - intros [[= <- <-]|[]]. exists []. repeat split. constructor.
  - destruct (p c) eqn:Hc.
    + intros [([k t'] & [= <- <-] & H)%in_map_iff|[[= <- <-]|[]]]%in_app_iff.
      * destruct (IH _ _ H) as (w & -> & -> & Hw).
        exists (c :: w). repeat split. by constructor.
      * exists []. repeat split. constructor.
    + intros [[= <- <-]|[]]. exists []. repeat split. constructor.
Qed.

Lemma is_prefix_sound v s t : is_prefix v s = Some t -> s = v ++ t.
Proof.
  revert s. induction v as [|a v IH]; intros s; simpl.
  - by intros [= ->].
  - destruct s as [|c s]; [done|].
    destruct (Ascii.eqb_spec a c) as [->|]; [|done].
    intros H. by rewrite (IH _ H).
Qed.

Lemma exec_sound r cur caps cur' caps' :
  In (cur', caps') (exec r cur caps) ->
  exists w, ahead cur = w ++ ahead cur'
            /\ pos cur' = (pos cur + length w)%nat /\ lang r w.
Proof.
  revert cur caps cur' caps'.
  induction r as [| |p|v|r1 IH1 r2 IH2|r1 IH1 r2 IH2|r1 IH1|p|j r1 IH1];
    intros cur caps cur' caps'; simpl.
  - destruct (Nat.eqb _ _); simpl; [|done]. intros [[= <- <-]|[]].
    exists []. simpl. split_and!; try done; lia.
  - intros H. assert (Heq : (cur, caps) = (cur', caps')).
    { destruct (ahead cur) as [|c [|c' t]]; simpl in H; try done.
      - by destruct H.
      - destruct (Ascii.eqb c newline); simpl in H; [by destruct H|done]. }
    injection Heq as <- <-. exists []. simpl. split_and!; try done; lia.
  - destruct (ahead cur) as [|c t]; simpl; [done|].
    destruct (p c) eqn:Hc; simpl; [|done]. intros [[= <- <-]|[]].
    exists [c]. simpl. split_and!; try done; [lia|by exists c].
  - destruct (is_prefix v (ahead cur)) eqn:E; simpl; [|done].
    intros [[= <- <-]|[]]. exists v. simpl.
    split_and!; try done. by apply is_prefix_sound.
  - intros ([c1 m1] & H1 & H2)%in_flat_map.
    destruct (IH1 _ _ _ _ H1) as (w1 & E1 & P1 & L1).
    destruct (IH2 _ _ _ _ H2) as (w2 & E2 & P2 & L2).
    exists (w1 ++ w2). rewrite length_app, <- app_assoc.
    split_and!; [congruence|lia|by exists w1, w2].
  - intros [H|H]%in_app_iff.
    + destruct (IH1 _ _ _ _ H) as (w & ? & ? & ?). exists w. auto.
    + destruct (IH2 _ _ _ _ H) as (w & ? & ? & ?). exists w. auto.
  - intros [H|[[= <- <-]|[]]]%in_app_iff.
    + destruct (IH1 _ _ _ _ H) as (w & ? & ? & ?). exists w. auto.
    + exists []. simpl. split_and!; auto; lia.
  - intros ([n t] & [= <- <-] & H)%in_map_iff. simpl.
    destruct (star_splits_sound _ _ _ _ H) as (w & ? & -> & ?). by exists w.
  - intros ([c1 m1] & [= <- <-] & H)%in_map_iff.
    destruct (IH1 _ _ _ _ H) as (w & ? & ? & ?). by exists w.
Qed.

Lemma exec_frame r cur caps cur' caps' i :
  In (cur', caps') (exec r cur caps) ->
  ~ In i (all_groups r) -> caps' !! i = caps !! i.
Proof.
  revert cur caps cur' caps'.
  induction r as [| |p|v|r1 IH1 r2 IH2|r1 IH1 r2 IH2|r1 IH1|p|j r1 IH1];
    intros cur caps cur' caps'; simpl.
  - destruct (Nat.eqb _ _); simpl; [|done]. by intros [[= <- <-]|[]].
  - destruct (ahead cur) as [|c [|c' t]]; simpl; try done.
    + by intros [[= <- <-]|[]].
    + destruct (Ascii.eqb c newline); simpl; [|done].
      by intros [[= <- <-]|[]].
  - destruct (ahead cur) as [|c t]; simpl; [done|].
    destruct (p c); simpl; [|done]. by intros [[= <- <-]|[]].
  - destruct (is_prefix v (ahead cur)); simpl; [|done].
    by intros [[= <- <-]|[]].
  - intros ([c1 m1] & H1 & H2)%in_flat_map Hi.
    rewrite (IH2 _ _ _ _ H2), (IH1 _ _ _ _ H1); [done|..];
      intros ?; apply Hi, in_app_iff; auto.
  - intros [H|H]%in_app_iff Hi; [apply (IH1 _ _ _ _ H)|apply (IH2 _ _ _ _ H)];
      intros ?; apply Hi, in_app_iff; auto.
  - intros [H|[[= <- <-]|[]]]%in_app_iff Hi; eauto.
  - by intros ([n t] & [= <- <-] & _)%in_map_iff.
  - intros ([c1 m1] & [= <- <-] & H)%in_map_iff Hi.
    rewrite lookup_insert_ne by (intros ->; apply Hi; by left).
    apply (IH1 _ _ _ _ H). intros ?. apply Hi. by right.
Qed.

Lemma captures_in_grp i r : captures_in (Grp i r) i (lang r).
Proof.
  intros cur caps cur' caps'. simpl.
  intros ([c1 m1] & [= <- <-] & H)%in_map_iff.
  destruct (exec_sound _ _ _ _ _ H) as (w & E & P & L).
  exists w. split; [|done]. rewrite lookup_insert_eq. f_equal.
  rewrite E, P. replace (pos cur + length w - pos cur)%nat with (length w)
    by lia.
  apply take_app_length.
Qed.

Lemma captures_in_cat_l r1 r2 i P :
  captures_in r1 i P -> ~ In i (all_groups r2) -> captures_in (Cat r1 r2) i P.
Proof.
  intros H1 Hi cur caps cur' caps'. simpl.
  intros ([c1 m1] & Hin1 & Hin2)%in_flat_map.
  rewrite (exec_frame _ _ _ _ _ i Hin2 Hi). eauto.
Qed.

Lemma captures_in_cat_r r1 r2 i P :
  captures_in r2 i P -> captures_in (Cat r1 r2) i P.
Proof.
  intros H2 cur caps cur' caps'. simpl.
  intros ([c1 m1] & Hin1 & Hin2)%in_flat_map. eauto.
Qed.

Lemma standard_pattern_amount : captures_in standard_pattern 1 (lang amount_re).
Proof.
  unfold standard_pattern.
  do 6 (apply captures_in_cat_l; [|simpl; intuition discriminate]).
  apply captures_in_cat_r, captures_in_grp.
Qed.

Lemma verb_pattern_amount : captures_in verb_pattern 2 (lang amount_re).
Proof.
  unfold verb_pattern.
  do 4 (apply captures_in_cat_l; [|simpl; intuition discriminate]).
  apply captures_in_cat_r, captures_in_grp.
Qed.

(** Every word of the amount pattern is a numeral [float()] reads. *)
Lemma amount_re_numeral w :
  lang amount_re w -> exists ds k, numeral w ds k.
Proof.
  intros (w12 & w3 & -> & (w1 & w2 & -> & L1 & L2) & L3).
  destruct L1 as (a & ds & -> & (c & -> & Hc) & Hds).
  assert (Hrun : run_of is_digit ([c] ++ ds)).
  { split; [done|]. by constructor. }
  destruct L2 as [->| ->].
  - rewrite app_nil_r. exists (([c] ++ ds) ++ w3), 0%nat.
    apply numeral_int. split; [done|]. apply Forall_app. split; [apply Hrun|done].
  - rewrite <- app_assoc. eexists _, _. by apply numeral_frac.
Qed.

Lemma parse_dose_string_no_value_error s msg :
  parse_dose_string s <> Raise (ValueError msg).
Proof.
  unfold parse_dose_string.
  destruct (re_match standard_pattern _) as [m|] eqn:Hstd;
    cbn [fmap option_fmap option_map groups4].
  - destruct (ROUTE_ALIASES !! _); [|done].
    apply re_match_first in Hstd as [cur' Hin].
    apply standard_pattern_amount in Hin as (w & Hw & L).
    apply amount_re_numeral in L as (ds & k & Hnum).
    unfold group. rewrite Hw. simpl.
    by rewrite (py_float_numeral _ _ _ Hnum).
  - destruct (re_match verb_pattern _) as [m|] eqn:Hvb;
      cbn [fmap option_fmap option_map groups4]; [|done].
    destruct (ROUTE_ALIASES !! _); [|done].
    apply re_match_first in Hvb as [cur' Hin].
    apply verb_pattern_amount in Hin as (w & Hw & L).
    apply amount_re_numeral in L as (ds & k & Hnum).
    unfold group. rewrite Hw. simpl.
    by rewrite (py_float_numeral _ _ _ Hnum).
Qed.

End Soundness.

(** ** The registry *)

Section Registry.

(** The reverse table sends every declared alias to its owner. *)
Lemma owner_lookup c a : owns c a -> ROUTE_ALIASES !! a = Some c.
Proof.
  intros (als & Hc & Ha).
  assert (H : forallb (fun ca => forallb (alias_of (fst ca)) (snd ca))
                ADMINISTRATION_METHODS = true) by (vm_compute; reflexivity).
  rewrite forallb_forall in H. specialize (H _ Hc).
  change (forallb (alias_of c) als = true) in H.
  rewrite forallb_forall in H. specialize (H _ Ha).
  unfold alias_of in H. by apply bool_decide_eq_true in H.
Qed.

(** No canonical name is the empty string, so the truth test on the looked-up
    route never fails for a key of the table. *)
Lemma aliases_nonempty (k v : string) :
  ROUTE_ALIASES !! k = Some v -> String.eqb v "" = false.
Proof.
  revert k v.
  apply (map_Forall_to_list (fun (_ v : string) => String.eqb v "" = false)).
  vm_compute. repeat constructor.
Qed.

End Registry.

(** ** Logging from text *)

Lemma log_dose_string_standard
    now u lead txt ds k w ws1 sub ws2 rt trail canon :
  blank lead -> numeral txt ds k -> unit_token w ->
  run_of is_space ws1 -> run_of is_alpha_hyphen sub ->
  run_of is_space ws2 -> run_of is_alpha_hyphen rt -> blank trail ->
  ROUTE_ALIASES !! text rt = Some canon ->
  log_dose_string now
    (text (lead ++ (txt ++ w ++ ws1 ++ sub ++ ws2 ++ rt) ++ trail)) u
  = (appended u
       (Build_DoseEntry (text (lower sub))
          (convert_units (text w) (float_of_decimal (digits_value ds) k))
          canon now "mg"),
     []).
Proof.
  intros Hlead Hnum Hw Hws1 Hsub Hws2 Hrt Htrail Hcanon.
  unfold log_dose_string, log_dose_string_try, parse_dose_string.
  rewrite chars_text, strip_padded; try done.
  - rewrite (standard_pattern_groups txt ds k) by done.
    rewrite Hcanon, (py_float_numeral txt ds k Hnum), Hcanon.
    by rewrite (aliases_nonempty _ _ Hcanon).
  - destruct (numeral_run txt ds k Hnum) as (c & t & -> & Hc).
    simpl. by apply digit_not_space.
  - rewrite !app_assoc.
    apply (stops_rev_run _ is_alpha_hyphen); [apply alpha_not_space|done].
Qed.

Lemma log_dose_string_verb
    now u lead vb ws1 txt ds k w ws2 sub trail canon :
  blank lead -> run_of is_word vb -> run_of is_space ws1 ->
  numeral txt ds k -> unit_token w ->
  run_of is_space ws2 -> run_of is_alpha_hyphen sub -> blank trail ->
  ROUTE_ALIASES !! text (chars "@" ++ vb) = Some canon ->
  log_dose_string now
    (text (lead ++ ((chars "@" ++ vb) ++ ws1 ++ txt ++ w ++ ws2 ++ sub)
           ++ trail)) u
  = (appended u
       (Build_DoseEntry (text (lower sub))
          (convert_units (text w) (float_of_decimal (digits_value ds) k))
          canon now "mg"),
     []).
Proof.
  intros Hlead Hvb Hws1 Hnum Hw Hws2 Hsub Htrail Hcanon.
  unfold log_dose_string, log_dose_string_try, parse_dose_string.
  rewrite chars_text, strip_padded; try done.
  - rewrite <- (app_assoc (chars "@")) at 1.
    rewrite standard_pattern_at_sign. cbn [fmap option_fmap option_map].
    rewrite (verb_pattern_groups vb ws1 txt ds k) by done.
    rewrite Hcanon, (py_float_numeral txt ds k Hnum), Hcanon.
    by rewrite (aliases_nonempty _ _ Hcanon).
  - rewrite !app_assoc.
    apply (stops_rev_run _ is_alpha_hyphen); [apply alpha_not_space|done].
Qed.

Lemma convert_units_cases (w : str) (x : float) :
  unit_token w ->
  (w = chars "ug" -> convert_units (text w) x = fdiv x (float_of_int 1000))
  /\ (w = chars "g" -> convert_units (text w) x = fmul x (float_of_int 1000))
  /\ (w = chars "mg" \/ w = chars "ml" -> convert_units (text w) x = x).
Proof.
  intros [->|[->|[->| ->]]]; split_and!; try done;
    by intros [?|?].
Qed.

(** C1. A string of the standard grammar (a decimal numeral, a unit stuck to
    it, then a substance token and a route token, each after a run of white
    space; white space around the whole is stripped) whose route token is a
    declared alias makes [log_dose_string] append exactly one entry and print
    nothing.  The entry holds the substance lower-cased, the canonical route
    that owns the alias, and the parsed amount divided by 1000 for [ug],
    multiplied by 1000 for [g], unchanged for [mg] and [ml]. *)
Theorem log_dose_string_standard_grammar
    (now : datetime) (u : User)
    (lead txt ds : str) (k : nat) (w ws1 sub ws2 rt trail : str)
    (canon : string) :
  blank lead -> numeral txt ds k -> unit_token w ->
  run_of is_space ws1 -> run_of is_alpha_hyphen sub ->
  run_of is_space ws2 -> run_of is_alpha_hyphen rt -> blank trail ->
  owns canon (text rt) ->
  exists x mg,
    py_float txt = Some x
    /\ log_dose_string now
         (text (lead ++ (txt ++ w ++ ws1 ++ sub ++ ws2 ++ rt) ++ trail)) u
       = (appended u (Build_DoseEntry (text (lower sub)) mg canon now "mg"),
          [])
    /\ (w = chars "ug" -> mg = fdiv x (float_of_int 1000))
    /\ (w = chars "g" -> mg = fmul x (float_of_int 1000))
    /\ (w = chars "mg" \/ w = chars "ml" -> mg = x).
Proof.
  intros Hlead Hnum Hw Hws1 Hsub Hws2 Hrt Htrail Hcanon.
  exists (float_of_decimal (digits_value ds) k).
  exists (convert_units (text w) (float_of_decimal (digits_value ds) k)).
  split; [by apply py_float_numeral|].
  split; [|by apply convert_units_cases].
  apply (log_dose_string_standard _ _ _ txt ds k); try done.
  by apply owner_lookup.
Qed.

Lemma log_dose_string_standard_grammar_witness :
  exists e,
    log_dose_string noon "0.4ug LSD sublingual" nobody
      = (appended nobody e, [])
    /\ substance e = "lsd" /\ route e = "sublingual"
    /\ Some (amount e) = py_float (chars "0.0004").
Proof.
  destruct (log_dose_string_standard_grammar noon nobody
              [] (chars "0.4") (chars "04") 1 (chars "ug") (chars " ")
              (chars "LSD") (chars " ") (chars "sublingual") [] "sublingual")
    as (x & mg & Hx & Hlog & Hug & _).
  - constructor.
  - apply (numeral_frac (chars "0") (chars "4")).
    + split; [discriminate|repeat constructor].
    + repeat constructor.
  - right. left. reflexivity.
  - split; [discriminate|repeat constructor].
  - split; [discriminate|repeat constructor].
  - split; [discriminate|repeat constructor].
  - split; [discriminate|repeat constructor].
  - constructor.
  - exists ["sublingual"; "dissolved"]%string. split; simpl; tauto.
  - eexists. split; [exact Hlog|]. simpl. split; [reflexivity|].
    split; [reflexivity|].
    rewrite (Hug eq_refl). vm_compute in Hx. injection Hx as <-.
    reflexivity.
Defined.

(** C2. A string of the verb grammar (an at-sign verb, then the numeral with
    its unit, then the substance) whose verb is declared in the registry
    makes [log_dose_string] append exactly one entry, whose route is the
    canonical route that owns the verb, whose substance is lower-cased and
    whose amount follows the same conversion rule; [@ate 30mg adderall]
    gives route [oral] and amount 30. *)
Theorem log_dose_string_verb_grammar
    (now : datetime) (u : User)
    (lead vb ws1 txt ds : str) (k : nat) (w ws2 sub trail : str)
    (canon : string) :
  blank lead -> run_of is_word vb -> run_of is_space ws1 ->
  numeral txt ds k -> unit_token w ->
  run_of is_space ws2 -> run_of is_alpha_hyphen sub -> blank trail ->
  owns canon (text (chars "@" ++ vb)) ->
  exists x mg,
    py_float txt = Some x
    /\ log_dose_string now
         (text (lead ++ ((chars "@" ++ vb) ++ ws1 ++ txt ++ w ++ ws2 ++ sub)
                ++ trail)) u
       = (appended u (Build_DoseEntry (text (lower sub)) mg canon now "mg"),
          [])
    /\ (w = chars "ug" -> mg = fdiv x (float_of_int 1000))
    /\ (w = chars "g" -> mg = fmul x (float_of_int 1000))
    /\ (w = chars "mg" \/ w = chars "ml" -> mg = x).
Proof.
  intros Hlead Hvb Hws1 Hnum Hw Hws2 Hsub Htrail Hcanon.
  exists (float_of_decimal (digits_value ds) k).
  exists (convert_units (text w) (float_of_decimal (digits_value ds) k)).
  split; [by apply py_float_numeral|].
  split; [|by apply convert_units_cases].
  apply (log_dose_string_verb _ _ _ vb ws1 txt ds k); try done.
  by apply owner_lookup.
Qed.

Lemma log_dose_string_verb_grammar_witness :
  exists e,
    log_dose_string noon "@ate 30mg adderall" nobody
      = (appended nobody e, [])
    /\ substance e = "adderall" /\ route e = "oral"
    /\ amount e = float_of_int 30.
Proof.
  destruct (log_dose_string_verb_grammar noon nobody
              [] (chars "ate") (chars " ") (chars "30") (chars "30") 0
              (chars "mg") (chars " ") (chars "adderall") [] "oral")
    as (x & mg & Hx & Hlog & _ & _ & Hmg).
  - constructor.
  - split; [discriminate|repeat constructor].
  - split; [discriminate|repeat constructor].
  - apply numeral_int. split; [discriminate|repeat constructor].
  - left. reflexivity.
  - split; [discriminate|repeat constructor].
  - split; [discriminate|repeat constructor].
  - constructor.
  - exists ["oral"; "swallowed"; "chewed"; "@ate"]%string.
    split; simpl; tauto.
  - eexists. split; [exact Hlog|]. simpl. split; [reflexivity|].
    split; [reflexivity|].
    rewrite (Hmg (or_introl eq_refl)). vm_compute in Hx. injection Hx as <-.
    reflexivity.
Defined.

(** Whatever the string, [log_dose_string] returns: either the user is handed
    back as it was together with one line reporting a parsing error, or one
    entry has been appended and nothing printed.  The handler for unexpected
    exceptions is never entered. *)
Lemma log_dose_string_outcomes now s u :
  (exists msg,
     log_dose_string now s u
       = (u, ["Error parsing dose string: " ++ msg]%string))
  \/ (exists e, log_dose_string now s u = (appended u e, [])).
Proof.
  unfold log_dose_string, log_dose_string_try.
  destruct (parse_dose_string s) as [[[[x un] sb] rv]|[msg|msg]] eqn:Hp.
  - destruct (ROUTE_ALIASES !! rv) as [canon|]; [|left; by eexists].
    destruct (String.eqb canon ""); [left|right]; by eexists.
  - left. by eexists.
  - by apply parse_dose_string_no_value_error in Hp.
Qed.

(** C3. A string that matches neither pattern, or that matches one with a
    route or verb token missing from the alias table, is reported and
    dropped: [log_dose_string] returns the user unchanged (same entries, same
    view) and prints one line that starts with the parsing-error prefix.
    On every string the method returns, with that report or with one entry
    appended: no exception leaves it. *)
Theorem log_dose_string_rejects (now : datetime) (s : string) (u : User) :
  let subject := strip (chars s) in
  (re_match standard_pattern subject = None
   /\ re_match verb_pattern subject = None)
  \/ (exists m, re_match standard_pattern subject = Some m
                /\ ROUTE_ALIASES !! text (group m 4) = None)
  \/ (re_match standard_pattern subject = None
      /\ exists m, re_match verb_pattern subject = Some m
                   /\ ROUTE_ALIASES !! text (group m 1) = None) ->
  (forall now' s' u',
     (exists msg,
        log_dose_string now' s' u'
          = (u', ["Error parsing dose string: " ++ msg]%string))
     \/ (exists e, log_dose_string now' s' u' = (appended u' e, [])))
  /\ (exists msg,
     log_dose_string now s u
       = (u, ["Error parsing dose string: " ++ msg]%string))
  /\ entries (fst (log_dose_string now s u)) = entries u
  /\ length (entries (fst (log_dose_string now s u))) = length (entries u).
Proof.
  intros subject H.
  assert (Hmsg : exists msg,
             log_dose_string now s u
               = (u, ["Error parsing dose string: " ++ msg]%string)).
  { unfold log_dose_string, log_dose_string_try, parse_dose_string.
    fold subject.
    destruct H as [[Hstd Hvb]|[(m & Hstd & Hrt)|(Hstd & m & Hvb & Hrt)]].
    - rewrite Hstd, Hvb. by eexists.
    - rewrite Hstd. cbn [fmap option_fmap option_map groups4].
      rewrite Hrt. by eexists.
    - rewrite Hstd, Hvb. cbn [fmap option_fmap option_map groups4].
      rewrite Hrt. by eexists. }
  split; [intros; apply log_dose_string_outcomes|].
  destruct Hmsg as [msg Hmsg]. rewrite Hmsg. eauto.
Qed.

Lemma log_dose_string_rejects_witness :
  (exists msg,
     log_dose_string noon "30mg adderall intramuscular" nobody
       = (nobody, ["Error parsing dose string: " ++ msg]%string))
  /\ (exists msg,
        log_dose_string noon "thirty mg of something" nobody
          = (nobody, ["Error parsing dose string: " ++ msg]%string)).
Proof.
  split.
  - apply (log_dose_string_rejects noon "30mg adderall intramuscular" nobody).
    right. left. eexists. split; [vm_compute; reflexivity|].
    vm_compute. reflexivity.
  - apply (log_dose_string_rejects noon "thirty mg of something" nobody).
    left. split; vm_compute; reflexivity.
Defined.

(** ** The sign of a logged amount *)

Section Rounding.

Local Open Scope Z_scope.

Lemma shr_1_nonneg mrs : 0 <= shr_m mrs -> 0 <= shr_m (shr_1 mrs).
Proof. destruct mrs as [[|[p|p|]|p] r t]; simpl; lia. Qed.

Lemma iter_shr_1_nonneg p mrs :
  0 <= shr_m mrs -> 0 <= shr_m (SpecFloat.iter_pos shr_1 p mrs).
Proof.
  revert mrs. induction p as [p IH|p IH|]; intros mrs H; simpl.
  - by apply IH, IH, shr_1_nonneg.
  - by apply IH, IH.
  - by apply shr_1_nonneg.
Qed.

Lemma shr_fexp_nonneg m e l :
  0 <= m -> 0 <= shr_m (fst (shr_fexp prec emax m e l)).
Proof.
  intros Hm. unfold shr_fexp, shr.
  assert (0 <= shr_m (shr_record_of_loc m l)) by (by destruct l as [|[]]).
  destruct (_ - e); simpl; try done. by apply iter_shr_1_nonneg.
Qed.

Lemma round_nearest_even_nonneg m l : 0 <= m -> 0 <= round_nearest_even m l.
Proof.
  intros Hm. destruct l as [|[]]; simpl; try lia.
  destruct (Z.even m); lia.
Qed.

Lemma binary_round_aux_nonneg m e l :
  0 <= m -> nonneg_float (binary_round_aux prec emax false m e l) = true.
Proof.
  intros Hm. unfold binary_round_aux.
  pose proof (shr_fexp_nonneg m e l Hm) as H1.
  destruct (shr_fexp prec emax m e l) as [mrs1 e1]. simpl in H1.
  pose proof (shr_fexp_nonneg _ e1 loc_Exact
                (round_nearest_even_nonneg _ (loc_of_shr_record mrs1) H1))
    as H2.
  destruct (shr_fexp prec emax _ e1 loc_Exact) as [mrs2 e2]. simpl in H2.
  destruct (shr_m mrs2) as [|p|p]; [done| |lia].
  by destruct (e2 <=? emax - prec).
Qed.

Lemma SFdiv_core_nonneg m1 e1 m2 e2 :
  0 <= m1 -> 0 < m2 ->
  0 <= fst (fst (SFdiv_core_binary prec emax m1 e1 m2 e2)).
Proof.
  intros H1 H2. unfold SFdiv_core_binary.
  set (s := e1 - e2 - _).
  set (m' := match s with Z0 => m1 | Zpos _ => Z.shiftl m1 s | Zneg _ => 0 end).
  assert (Hm' : 0 <= m').
  { subst m'. destruct s; try lia. by apply Z.shiftl_nonneg. }
  pose proof (Z.div_pos m' m2 Hm' H2) as Hq. unfold Z.div in Hq.
  by destruct (Z.div_eucl m' m2).
Qed.

End Rounding.

Section Amounts.

Lemma float_of_decimal_nonneg n k :
  (0 <= n)%Z -> nonneg_float (float_of_decimal n k) = true.
Proof.
  intros Hn. unfold float_of_decimal. destruct n as [|p|p]; [done| |lia].
  pose proof (SFdiv_core_nonneg (Z.pos p) 0 (10 ^ Z.of_nat k) 0) as H.
  destruct (SFdiv_core_binary _ _ _ _ _ _) as [[q e] l]. simpl in H.
  apply binary_round_aux_nonneg, H; lia.
Qed.

Lemma digit_value_nonneg c : is_digit c = true -> (0 <= digit_value c)%Z.
Proof.
  unfold is_digit, in_range, digit_value.
  intros [H _]%andb_true_iff. apply N.leb_le in H. lia.
Qed.

Lemma fold_digits_nonneg ds acc :
  forallb is_digit ds = true -> (0 <= acc)%Z ->
  (0 <= fold_left (fun acc c => 10 * acc + digit_value c) ds acc)%Z.
Proof.
  revert acc. induction ds as [|c ds IH]; intros a H Ha; simpl in *; [done|].
  apply andb_true_iff in H as [Hc Hds]. apply IH; [done|].
  pose proof (digit_value_nonneg c Hc). lia.
Qed.

Lemma digits_value_nonneg ds :
  forallb is_digit ds = true -> (0 <= digits_value ds)%Z.
Proof. intros H. by apply fold_digits_nonneg. Qed.

Lemma py_float_nonneg t x : py_float t = Some x -> nonneg_float x = true.
Proof.
  unfold py_float. destruct (split_point t) as [i f].
  destruct (forallb is_digit i && forallb is_digit (default [] f)
            && negb (Nat.eqb (length i) 0)) eqn:H; [|done].
  intros [= <-]. apply float_of_decimal_nonneg, digits_value_nonneg.
  apply andb_true_iff in H as [[Hi Hf]%andb_true_iff _].
  rewrite forallb_app. by rewrite Hi, Hf.
Qed.

Lemma convert_units_nonneg un x :
  nonneg_float x = true -> nonneg_float (convert_units un x) = true.
Proof.
  intros Hx. unfold convert_units.
  change (float_of_int 1000) with (S754_finite false 8796093022208000 (-43)).
  destruct (String.eqb un "ug"); [|destruct (String.eqb un "g"); [|done]].
  - destruct x as [[]|[]| |[] mx ex]; try done.
    unfold fdiv, SFdiv.
    pose proof (SFdiv_core_nonneg (Z.pos mx) ex 8796093022208000 (-43)) as H.
    destruct (SFdiv_core_binary _ _ _ _ _ _) as [[q e] l]. simpl in H.
    apply binary_round_aux_nonneg, H; lia.
  - destruct x as [[]|[]| |[] mx ex]; try done.
    unfold fmul, SFmul. by apply binary_round_aux_nonneg.
Qed.

Lemma nonneg_float_fle x : nonneg_float x = true -> nonnegative_amount x.
Proof. by destruct x as [[]|[]| |[] m e]. Qed.

Lemma parse_amount_nonneg s x un sb rv :
  parse_dose_string s = Return (x, un, sb, rv) -> nonneg_float x = true.
Proof.
  unfold parse_dose_string.
  destruct (groups4 <$> re_match standard_pattern _) as [[[[a b] c] d]|].
  - destruct (ROUTE_ALIASES !! text d); [|done].
    destruct (py_float a) eqn:Ha; [|done].
    intros [= <- _ _ _]. by apply (py_float_nonneg a).
  - destruct (groups4 <$> re_match verb_pattern _) as [[[[a b] c] d]|];
      [|done].
    destruct (ROUTE_ALIASES !! text a); [|done].
    destruct (py_float b) eqn:Hb; [|done].
    intros [= <- _ _ _]. by apply (py_float_nonneg b).
Qed.

Lemma appended_neq u e : u <> appended u e.
Proof.
  intros H. apply (f_equal (fun v => length (entries v))) in H.
  simpl in H. rewrite length_app in H. simpl in H. lia.
Qed.

(** An appended entry comes from a successful parse. *)
Lemma log_dose_string_appended now s u e :
  fst (log_dose_string now s u) = appended u e ->
  exists x un sb rv canon,
    parse_dose_string s = Return (x, un, sb, rv)
    /\ ROUTE_ALIASES !! rv = Some canon
    /\ e = Build_DoseEntry sb (convert_units un x) canon now "mg".
Proof.
  unfold log_dose_string.
  destruct (log_dose_string_try now s u) as [u'|[msg|msg]] eqn:Htry; simpl;
    try (intros H; by apply appended_neq in H).
  unfold log_dose_string_try in Htry.
  destruct (parse_dose_string s) as [[[[x un] sb] rv]|err] eqn:Hp; [|done].
  destruct (ROUTE_ALIASES !! rv) as [canon|] eqn:Hrv; [|done].
  destruct (String.eqb canon ""); [done|].
  injection Htry as <-. intros H.
  apply (f_equal entries) in H. simpl in H. apply app_inv_head in H.
  injection H as <-. by exists x, un, sb, rv, canon.
Qed.

Lemma log_dose_string_nonneg now s u e :
  fst (log_dose_string now s u) = appended u e ->
  nonneg_float (amount e) = true.
Proof.
  intros (x & un & sb & rv & canon & Hp & _ & ->)%log_dose_string_appended.
  simpl. apply convert_units_nonneg.
  by apply (parse_amount_nonneg s x un sb rv).
Qed.

End Amounts.

(** C6, as the code has it.  An entry appended by [log_dose_string] holds an
    amount that is zero, positive or plus infinity, never negative and never
    a NaN, and its unit field is [mg]; [log_dose] appends the amount it is
    given as it is, whatever its sign. *)
Theorem logged_amounts_not_negative
    (now : datetime) (s : string) (u : User) (e : DoseEntry)
    (sub : string) (x : float) (rt : string) :
  (fst (log_dose_string now s u) = appended u e ->
   nonnegative_amount (amount e) /\ is_nan (amount e) = false
   /\ unit e = "mg"%string)
  /\ (exists canon,
        fst (log_dose now sub x rt u)
          = appended u (Build_DoseEntry sub x canon now "mg")).
Proof.
  split.
  - intros H. pose proof (log_dose_string_nonneg now s u e H) as Hnn.
    split; [by apply nonneg_float_fle|].
    split; [by destruct (amount e) as [[]|[]| |[] m k]|].
    by apply log_dose_string_appended
      in H as (a & un & sb & rv & canon & _ & _ & ->).
  - unfold log_dose. by eexists.
Qed.

Lemma logged_amounts_not_negative_witness :
  nonnegative_amount
    (amount (Build_DoseEntry "lsd" fzero "oral" noon "mg"))
  /\ fst (log_dose_string noon "0mg lsd oral" nobody)
     = appended nobody (Build_DoseEntry "lsd" fzero "oral" noon "mg").
Proof.
  assert (H : fst (log_dose_string noon "0mg lsd oral" nobody)
              = appended nobody (Build_DoseEntry "lsd" fzero "oral" noon "mg"))
    by (vm_compute; reflexivity).
  split; [|exact H].
  apply (logged_amounts_not_negative noon "0mg lsd oral" nobody _
           "lsd"%string fzero "oral"%string).
  exact H.
Defined.

(** The claim C6 as the spec words it fails on the code: the numeral [0] is
    accepted by both patterns and stored as the amount 0, which is not
    positive; and [log_dose] stores a negative amount as readily. *)
Lemma zero_and_negative_amounts_are_logged :
  ~ (forall now s u e,
       fst (log_dose_string now s u) = appended u e ->
       positive_amount (amount e))
  /\ ~ (forall now sub x rt u e,
          fst (log_dose now sub x rt u) = appended u e ->
          positive_amount (amount e)).
Proof.
  split.
  - intros H.
    specialize (H noon "0mg lsd oral"%string nobody
                  (Build_DoseEntry "lsd" fzero "oral" noon "mg")).
    assert (Hpos : positive_amount fzero) by (apply H; vm_compute; reflexivity).
    discriminate Hpos.
  - intros H.
    specialize (H noon "lsd"%string (float_of_int (-5)) "oral"%string nobody
                  (Build_DoseEntry "lsd" (float_of_int (-5)) "oral" noon "mg")).
    assert (Hpos : positive_amount (float_of_int (-5)))
      by (apply H; vm_compute; reflexivity).
    discriminate Hpos.
Qed.

(** * Further properties of the code *)

Local Open Scope nat_scope.

(** ** More on the registry *)

Lemma owns_b_owns c a : owns_b c a = true -> owns c a.
Proof.
  unfold owns_b. intros ([c' als] & Hin & H)%existsb_exists.
  apply andb_true_iff in H as [Hc Ha]. simpl in *.
  apply String.eqb_eq in Hc as <-.
  apply existsb_exists in Ha as (a' & Ha' & <-%String.eqb_eq).
  by exists als.
Qed.

Lemma lookup_owner a c : ROUTE_ALIASES !! a = Some c -> owns c a.
Proof.
  intros H. apply owns_b_owns. revert a c H.
  apply (map_Forall_to_list (fun a c : string => owns_b c a = true)).
  vm_compute. repeat constructor.
Qed.

(** X1. The reverse table is exact: it sends a token to a canonical route
    if and only if [ADMINISTRATION_METHODS] lists the token among that
    route's aliases.  No alias is declared under two routes, so the dict
    comprehension overwrites nothing and an alias has one owner. *)
Theorem alias_table_exact (a : string) :
  (forall c, ROUTE_ALIASES !! a = Some c <-> owns c a)
  /\ (forall c1 c2, owns c1 a -> owns c2 a -> c1 = c2).
Proof.
  split.
  - intros c. split; [apply lookup_owner|apply owner_lookup].
  - intros c1 c2 H1 H2. apply owner_lookup in H1, H2. congruence.
Qed.

Lemma lookup_canonical a c :
  ROUTE_ALIASES !! a = Some c -> In c canonical_routes.
Proof.
  intros (als & Hin & _)%lookup_owner.
  unfold canonical_routes. apply in_map_iff. by exists (c, als).
Qed.

Lemma other_canonical : In "other"%string canonical_routes.
Proof. vm_compute. tauto. Qed.

Section Sessions.

Implicit Types (u : User) (op : operation) (ops : list operation).

(** What one call does to the history: nothing, or one entry more. *)
Lemma perform_entries op u :
  entries (perform op u) = entries u
  \/ exists e, is_log op = true /\ entries (perform op u) = entries u ++ [e]
       /\ In (route e) canonical_routes.
Proof.
  destruct op as [now s|now sub x rt|c]; cbn [perform is_log].
  - destruct (log_dose_string_outcomes now s u) as [[msg H]|[e H]].
    + left. by rewrite H.
    + right. exists e. rewrite H. split_and!; try done.
      assert (He : fst (log_dose_string now s u) = appended u e)
        by by rewrite H.
      apply log_dose_string_appended
        in He as (x & un & sb & rv & canon & _ & Hc & ->).
      cbn [route]. by apply (lookup_canonical rv).
  - right. unfold log_dose. cbn [fst entries]. eexists.
    split_and!; [done..|]. cbn [route].
    destruct (bool_decide _); [|apply other_canonical].
    destruct (ROUTE_ALIASES !! rt) as [c|] eqn:E; cbn [default];
      [by apply (lookup_canonical rt)|apply other_canonical].
  - left. apply entries_call.
Qed.

Lemma perform_name op u : name (perform op u) = name u.
Proof.
  destruct op as [now s|now sub x rt|c]; cbn [perform];
    [|done|by destruct c].
  destruct (log_dose_string_outcomes now s u) as [[msg H]|[e H]];
    by rewrite H.
Qed.

(** X2. The history is append-only: whatever calls are made, in whatever
    order, the entries the user had are still there, in place, followed by
    at most one new entry per logging call; the name never changes. *)
Theorem session_append_only (ops : list operation) (u : User) :
  exists added,
    entries (session ops u) = entries u ++ added
    /\ length added <= length (List.filter is_log ops)
    /\ name (session ops u) = name u.
Proof.
  revert u. induction ops as [|op ops IH]; intros u.
  - exists []. by rewrite app_nil_r.
  - change (session (op :: ops) u) with (session ops (perform op u)).
    cbn [List.filter].
    destruct (IH (perform op u)) as (added & -> & Hlen & ->).
    rewrite perform_name.
    destruct (perform_entries op u) as [->|(e & Hlog & -> & _)].
    + exists added. split_and!; try done.
      destruct (is_log op); cbn [length]; lia.
    + exists (e :: added). rewrite <- app_assoc. rewrite Hlog.
      cbn [length app]. split_and!; try done. lia.
Qed.

(** X3. Every route stored by either logging method is one of the eleven
    canonical names: a history whose routes are canonical keeps them so
    through any sequence of calls. *)
Theorem session_routes_canonical (ops : list operation) (u : User) :
  Forall (fun e => In (route e) canonical_routes) (entries u) ->
  Forall (fun e => In (route e) canonical_routes) (entries (session ops u)).
Proof.
  revert u. induction ops as [|op ops IH]; intros u Hu; [done|].
  change (session (op :: ops) u) with (session ops (perform op u)).
  apply IH.
  destruct (perform_entries op u) as [->|(e & _ & -> & He)]; [done|].
  apply Forall_app. split; [done|]. by constructor.
Qed.

Lemma session_routes_canonical_witness :
  Forall (fun e => In (route e) canonical_routes)
    (entries (session [LogString noon "@ate 30mg adderall";
                       LogDose noon "ghb" (float_of_int 2) "drunk";
                       Filter (Only ["ghb"])] nobody)).
Proof.
  apply (session_routes_canonical _ nobody). constructor.
Defined.

End Sessions.

(** ** More on the filter chain *)

Section Views.

Implicit Types (u : User) (e : DoseEntry) (l : list DoseEntry).

Lemma filter_is_sublist {A : Type} (f : A -> bool) (l : list A) :
  sublist (List.filter f l) l.
Proof.
  induction l as [|a l IH]; simpl; [constructor|].
  destruct (f a); by constructor.
Qed.

Lemma slice_from_sublist {A : Type} (start : Z) (l : list A) :
  sublist (slice_from start l) l.
Proof. apply sublist_drop. Qed.

Lemma call_view_sublist c u :
  sublist (filtered_entries u) (entries u) ->
  sublist (filtered_entries (call c u)) (entries (call c u)).
Proof.
  intros H. destruct c; simpl; try apply filter_is_sublist.
  - etrans; [apply filter_is_sublist|done].
  - etrans; [apply slice_from_sublist|done].
Qed.

(** X4. The working view is drawn from the history.  [only], [from_year]
    and [from_date_range] make it a subsequence of the history whatever it
    was before; [via] and [last] keep it one, so a view that is a
    subsequence of the history is still one after any chain of filter
    calls. *)
Theorem view_stays_in_history (cs : list filter_call) (u : User) :
  (forall S, sublist (filtered_entries (only S (chain cs u))) (entries u))
  /\ (forall y,
        sublist (filtered_entries (from_year y (chain cs u))) (entries u))
  /\ (forall a b,
        sublist (filtered_entries (from_date_range a b (chain cs u)))
                (entries u))
  /\ (sublist (filtered_entries u) (entries u) ->
      sublist (filtered_entries (chain cs u)) (entries u)).
Proof.
  split_and!; try (intros; simpl; rewrite entries_chain;
                   apply filter_is_sublist).
  intros H. rewrite <- (entries_chain cs u). revert u H.
  induction cs as [|c cs IH]; intros u H; [done|].
  apply (IH (call c u)). by apply call_view_sublist.
Qed.

Lemma view_stays_in_history_witness :
  let history := [dose "lsd" 1 "oral"; dose "mdma" 100 "oral"] in
  let stray := [dose "ghb" 2 "oral"] in
  sublist
    (filtered_entries
       (chain [Via ["oral"]; Last 1]
          (Build_User "sernyl" history [dose "mdma" 100 "oral"])))
    history
  /\ sublist
       (filtered_entries
          (only ["lsd"] (chain [Via ["oral"]] (Build_User "sernyl" history stray))))
       history.
Proof.
  intros history stray. split.
  - apply (view_stays_in_history [Via ["oral"]; Last 1]
             (Build_User "sernyl" history [dose "mdma" 100 "oral"])).
    simpl. apply sublist_cons. reflexivity.
  - apply (view_stays_in_history [Via ["oral"]]
             (Build_User "sernyl" history stray)).
Defined.

(** X5. Two [via] calls in a row keep the entries whose route is in both
    lists, in either order of the calls, and repeating a [via] call changes
    nothing. *)
Theorem via_twice (R1 R2 : list string) (u : User) :
  via R2 (via R1 u) = via R1 (via R2 u)
  /\ filtered_entries (via R2 (via R1 u))
     = List.filter
         (fun e => bool_decide (route e ∈ R1 /\ route e ∈ R2))
         (filtered_entries u)
  /\ via R1 (via R1 u) = via R1 u.
Proof.
  unfold via, set_filtered; simpl. split_and!.
  - f_equal. rewrite !filter_filter_and. apply List.filter_ext.
    intros e. apply andb_comm.
  - rewrite filter_filter_and. apply List.filter_ext. intros e.
    destruct (contains R1 (route e)) eqn:H1, (contains R2 (route e)) eqn:H2;
      simpl; symmetry.
    + apply bool_decide_eq_true. split; by apply contains_elem_of.
    + apply bool_decide_eq_false. intros [_ H%contains_elem_of]. congruence.
    + apply bool_decide_eq_false. intros [H%contains_elem_of _]. congruence.
    + apply bool_decide_eq_false. intros [H%contains_elem_of _]. congruence.
  - f_equal. rewrite filter_filter_and. apply List.filter_ext.
    intros e. by destruct (contains R1 (route e)).
Qed.

Lemma slice_from_nonneg {A : Type} (k : Z) (l : list A) :
  (0 <= k)%Z -> slice_from k l = drop (Z.to_nat k) l.
Proof.
  intros Hk. unfold slice_from.
  destruct (Z.ltb_spec k 0) as [?|_]; [lia|].
  destruct (Z.min_spec k (Z.of_nat (length l))) as [[_ ->]|[Hle ->]]; [done|].
  rewrite Nat2Z.id, !drop_ge; [done|lia..].
Qed.

(** X6. For a positive [n], [last(n)] keeps a suffix of the working view,
    of [n] entries or of all of them when the view has fewer. *)
Theorem last_keeps_a_suffix (n : Z) (u : User) :
  (0 < n)%Z ->
  filtered_entries (last n u) `suffix_of` filtered_entries u
  /\ length (filtered_entries (last n u))
     = Nat.min (Z.to_nat n) (length (filtered_entries u)).
Proof.
  intros Hn. unfold last, set_filtered; simpl.
  rewrite (slice_from_neg n _ Hn). split; [apply suffix_drop|].
  rewrite length_drop. lia.
Qed.

Lemma last_keeps_a_suffix_witness :
  length (filtered_entries
            (last 1 (Build_User "sernyl" []
                       [dose "lsd" 1 "oral"; dose "mdma" 100 "oral"])))
  = 1%nat.
Proof.
  rewrite (proj2 (last_keeps_a_suffix 1
                    (Build_User "sernyl" []
                       [dose "lsd" 1 "oral"; dose "mdma" 100 "oral"])
                    ltac:(lia))).
  reflexivity.
Defined.

(** X7. A negative [n] is not refused: [last(n)] then drops the first
    [-n] entries of the working view and keeps the rest. *)
Theorem last_negative_drops_head (n : Z) (u : User) :
  (n < 0)%Z ->
  filtered_entries (last n u) = drop (Z.to_nat (- n)) (filtered_entries u).
Proof.
  intros Hn. unfold last, set_filtered; simpl.
  apply slice_from_nonneg. lia.
Qed.

Lemma last_negative_drops_head_witness :
  filtered_entries
    (last (-1) (Build_User "sernyl" []
                  [dose "lsd" 1 "oral"; dose "mdma" 100 "oral"]))
  = [dose "mdma" 100 "oral"].
Proof.
  rewrite (last_negative_drops_head (-1)
             (Build_User "sernyl" []
                [dose "lsd" 1 "oral"; dose "mdma" 100 "oral"])
             ltac:(lia)).
  reflexivity.
Defined.

(** X8. Narrowing twice with [last] is narrowing once with the smaller
    count: for [0 < m <= n], [last(n).last(m)] leaves what [last(m)]
    leaves. *)
Theorem last_last (m n : Z) (u : User) :
  (0 < m <= n)%Z -> last m (last n u) = last m u.
Proof.
  intros [Hm Hmn]. unfold last, set_filtered; simpl. f_equal.
  rewrite !slice_from_neg by lia. rewrite drop_drop, length_drop.
  f_equal. lia.
Qed.

Lemma last_last_witness :
  let u := Build_User "sernyl" []
             [dose "lsd" 1 "oral"; dose "mdma" 100 "oral"; dose "ghb" 2 "oral"] in
  last 1 (last 2 u) = last 1 u.
Proof. intros u. apply (last_last 1 2 u). lia. Defined.

End Views.

Section Dates.

Lemma lex_leb_trans (a b c : list Z) :
  lex_leb a b = true -> lex_leb b c = true -> lex_leb a c = true.
Proof.
  revert b c. induction a as [|x a IH]; intros [|y b] [|z c]; simpl;
    try done.
  intros H1 H2.
  apply orb_true_iff in H1 as [H1|[H1 H1']%andb_true_iff];
    apply orb_true_iff in H2 as [H2|[H2 H2']%andb_true_iff];
    apply orb_true_iff.
  - left. apply Z.ltb_lt in H1, H2. apply Z.ltb_lt. lia.
  - left. apply Z.ltb_lt in H1. apply Z.eqb_eq in H2. apply Z.ltb_lt. lia.
  - left. apply Z.eqb_eq in H1. apply Z.ltb_lt in H2. apply Z.ltb_lt. lia.
  - right. apply Z.eqb_eq in H1, H2. apply andb_true_iff.
    split; [apply Z.eqb_eq; lia|]. by apply (IH b c).
Qed.

Lemma filter_none {A : Type} (f : A -> bool) (l : list A) :
  (forall a, In a l -> f a = false) -> List.filter f l = [].
Proof.
  induction l as [|a l IH]; simpl; intros H; [done|].
  rewrite (H a) by auto. apply IH. auto.
Qed.

(** X9. A date range whose end lies before its start selects nothing,
    whatever the history. *)
Theorem from_date_range_reversed (start_date end_date : datetime) (u : User) :
  datetime_leb start_date end_date = false ->
  filtered_entries (from_date_range start_date end_date u) = [].
Proof.
  intros Hrev. unfold from_date_range, set_filtered; simpl.
  apply filter_none. intros e _.
  apply not_true_is_false. intros [H1 H2]%andb_true_iff.
  unfold datetime_leb in *.
  by rewrite (lex_leb_trans _ _ _ H1 H2) in Hrev.
Qed.

Lemma from_date_range_reversed_witness :
  filtered_entries
    (from_date_range (year_end 2024) (year_start 2024)
       (Build_User "sernyl" [dose "lsd" 1 "oral"] []))
  = [].
Proof.
  apply (from_date_range_reversed (year_end 2024) (year_start 2024)).
  reflexivity.
Defined.

Lemma lex_leb_pointwise (a b : list Z) :
  Forall2 Z.le a b -> lex_leb a b = true.
Proof.
  induction 1 as [|x y a b Hxy _ IH]; simpl; [done|].
  destruct (Z.ltb_spec x y) as [|Hge]; [done|]. simpl.
  rewrite IH, andb_true_r. apply Z.eqb_eq. lia.
Qed.

(** X10. On a history of well-formed timestamps, the date range from the
    first to the last microsecond of year [Y] selects what [from_year(Y)]
    selects. *)
Theorem from_date_range_whole_year (Y : Z) (u : User) :
  Forall (fun e => valid_datetime (timestamp e)) (entries u) ->
  from_date_range (year_start Y) (year_end Y) u = from_year Y u.
Proof.
  intros Hvalid. unfold from_date_range, from_year, set_filtered. f_equal.
  induction Hvalid as [|e l He _ IH]; simpl; [done|].
  rewrite IH. clear IH.
  assert (Heq : datetime_leb (year_start Y) (timestamp e)
                && datetime_leb (timestamp e) (year_end Y)
                = (year (timestamp e) =? Y)%Z); [|by rewrite Heq].
  destruct He as (Hmo & Hd & Hh & Hmi & Hs & Hus).
  unfold datetime_leb, datetime_key, year_start, year_end.
  cbn [year month day hour minute second microsecond].
  destruct (Z.eqb_spec (year (timestamp e)) Y) as [->|Hne].
  - rewrite !lex_leb_pointwise; [done|..];
      repeat constructor; lia.
  - cbn [lex_leb]. destruct (Z.ltb_spec Y (year (timestamp e))) as [Hlt|Hge].
    + destruct (Z.ltb_spec (year (timestamp e)) Y); [lia|].
      destruct (Z.eqb_spec (year (timestamp e)) Y); [lia|].
      by rewrite andb_false_r.
    + destruct (Z.eqb_spec Y (year (timestamp e))); [lia|]. done.
Qed.

Lemma from_date_range_whole_year_witness :
  filtered_entries
    (from_date_range (year_start 2024) (year_end 2024)
       (Build_User "sernyl" [dose "lsd" 1 "oral"] []))
  = [dose "lsd" 1 "oral"].
Proof.
  rewrite (from_date_range_whole_year 2024
             (Build_User "sernyl" [dose "lsd" 1 "oral"] [])).
  - reflexivity.
  - repeat constructor; simpl; lia.
Defined.

End Dates.

(** ** The tally *)

Section Tally.

Implicit Types (t : gmap string (gmap string float)) (e : DoseEntry).

Lemma tally_add_lookup t e sub rt :
  tally_lookup (tally_add t e) sub rt
  = if String.eqb (substance e) sub && String.eqb (route e) rt
    then Some (fadd (default fzero (tally_lookup t sub rt)) (amount e))
    else tally_lookup t sub rt.
Proof.
  unfold tally_lookup, tally_add.
  destruct (String.eqb_spec (substance e) sub) as [->|Hs]; simpl.
  - rewrite lookup_insert_eq. simpl.
    destruct (String.eqb_spec (route e) rt) as [->|Hr].
    + rewrite lookup_insert_eq. by destruct (t !! sub).
    + rewrite lookup_insert_ne by done. by destruct (t !! sub).
  - by rewrite lookup_insert_ne.
Qed.

Lemma fold_tally_add_lookup view t sub rt :
  tally_lookup (fold_left tally_add view t) sub rt
  = add_onto (tally_lookup t sub rt) (amounts (matching sub rt view)).
Proof.
  revert t. induction view as [|e view IH]; intros t; simpl; [done|].
  rewrite IH, tally_add_lookup.
  by destruct (String.eqb (substance e) sub && String.eqb (route e) rt).
Qed.

Lemma add_onto_started a xs : add_onto (Some a) xs = Some (fold_left fadd xs a).
Proof.
  revert a. induction xs as [|x xs IH]; intros a; simpl; [done|].
  apply IH.
Qed.

(** X11. [tally_each] groups and sums: under a substance and a route it
    holds the amounts of the view's entries logged for that substance by
    that route, added in view order onto 0.0; the pair of keys is missing
    exactly when the view has no such entry. *)
Theorem tally_each_sums (u : User) (sub rt : string) :
  tally_lookup (tally_each u) sub rt
  = match amounts (matching sub rt (filtered_entries u)) with
    | [] => None
    | x :: xs => Some (fold_left fadd xs (fadd fzero x))
    end.
Proof.
  unfold tally_each. rewrite fold_tally_add_lookup.
  unfold tally_lookup at 1. rewrite lookup_empty. simpl.
  destruct (amounts _) as [|x xs]; [done|]. simpl.
  apply add_onto_started.
Qed.

Lemma fadd_zero_l x : x <> S754_zero true -> fadd fzero x = x.
Proof. by destruct x as [[]|[]| |[] m e]. Qed.

Lemma nonneg_float_not_negzero x :
  nonneg_float x = true -> x <> S754_zero true.
Proof. by intros H ->. Qed.

(** X12. Round trip through the log and the tally: after logging a string
    of the standard grammar for a substance the history does not hold yet,
    [only(substance).tally_each()] is the mapping with that substance alone,
    one route under it (the canonical one) and the logged amount as its
    sum. *)
Theorem log_then_tally
    (now : datetime) (u : User)
    (txt ds : str) (k : nat) (w ws1 sub ws2 rt : str) (canon : string) :
  numeral txt ds k -> unit_token w ->
  run_of is_space ws1 -> run_of is_alpha_hyphen sub ->
  run_of is_space ws2 -> run_of is_alpha_hyphen rt ->
  owns canon (text rt) ->
  Forall (fun e => substance e <> text (lower sub)) (entries u) ->
  tally_each
    (only [text (lower sub)]
       (fst (log_dose_string now
               (text (txt ++ w ++ ws1 ++ sub ++ ws2 ++ rt)) u)))
  = {[ text (lower sub) :=
         {[ canon :=
              convert_units (text w) (float_of_decimal (digits_value ds) k) ]} ]}.
Proof.
  intros Hnum Hw Hws1 Hsub Hws2 Hrt Hcanon Hfresh.
  pose proof (log_dose_string_standard now u [] txt ds k w ws1 sub ws2 rt []
                canon) as Hlog.
  rewrite app_nil_r in Hlog. cbn [app] in Hlog.
  rewrite Hlog; try done; [|constructor|constructor|by apply owner_lookup].
  unfold tally_each, only, set_filtered, appended.
  cbn [fst entries filtered_entries].
  rewrite List.filter_app.
  rewrite (filter_none _ (entries u)).
  - cbn [List.filter app substance contains existsb].
    rewrite String.eqb_refl. cbn [orb fold_left].
    unfold tally_add. cbn [substance route amount].
    rewrite !lookup_empty. cbn [default].
    rewrite lookup_empty. cbn [default].
    rewrite fadd_zero_l; [done|].
    apply nonneg_float_not_negzero, convert_units_nonneg.
    apply float_of_decimal_nonneg, digits_value_nonneg, all_in_forallb.
    destruct Hnum as [? [_ H]|? ? [_ H] H']; [done|].
    by apply Forall_app.
  - intros e He. unfold contains. cbn [existsb]. rewrite orb_false_r.
    apply String.eqb_neq.
    rewrite Forall_forall in Hfresh. apply Hfresh. by apply list_elem_of_In.
Qed.

Lemma log_then_tally_witness :
  tally_each
    (only ["methamphetamine"]
       (fst (log_dose_string noon "20mg methamphetamine oral" nobody)))
  = {[ "methamphetamine"%string := {[ "oral"%string := float_of_int 20 ]} ]}.
Proof.
  assert (H := log_then_tally noon nobody (chars "20") (chars "20") 0
             (chars "mg") (chars " ") (chars "methamphetamine") (chars " ")
             (chars "oral") "oral").
  apply H.
  - apply numeral_int. split; [discriminate|repeat constructor].
  - left. reflexivity.
  - split; [discriminate|repeat constructor].
  - split; [discriminate|repeat constructor].
  - split; [discriminate|repeat constructor].
  - split; [discriminate|repeat constructor].
  - exists ["oral"; "swallowed"; "chewed"; "@ate"]%string.
    split; simpl; tauto.
  - constructor.
Defined.

End Tally.

Section LastDose.

Lemma lex_leb_refl (a : list Z) : lex_leb a a = true.
Proof.
  induction a as [|x a IH]; simpl; [done|].
  by rewrite Z.eqb_refl, IH, orb_true_r.
Qed.

Lemma lex_leb_total (a b : list Z) :
  lex_leb a b = false -> lex_leb b a = true.
Proof.
  revert b. induction a as [|x a IH]; intros [|y b]; simpl; try done.
  intros [H1 H2]%orb_false_iff.
  apply Z.ltb_ge in H1.
  destruct (Z.ltb_spec y x) as [|Hge]; [done|]. simpl.
  assert (x = y) as -> by lia. rewrite Z.eqb_refl in *. simpl in *.
  by apply IH.
Qed.

Lemma max_by_timestamp_latest first others :
  let best := max_by_timestamp first others in
  In best (first :: others)
  /\ Forall (fun e => datetime_leb (timestamp e) (timestamp best) = true)
            (first :: others).
Proof.
  unfold max_by_timestamp.
  assert (G : forall seen best,
    In best seen ->
    Forall (fun e => datetime_leb (timestamp e) (timestamp best) = true) seen ->
    let r := fold_left
      (fun best entry =>
         if datetime_leb (timestamp entry) (timestamp best)
         then best else entry) others best in
    In r (seen ++ others)
    /\ Forall (fun e => datetime_leb (timestamp e) (timestamp r) = true)
              (seen ++ others)).
  { induction others as [|e others IH]; intros seen best Hin Hall; simpl.
    - by rewrite app_nil_r.
    - replace (seen ++ e :: others) with ((seen ++ [e]) ++ others)
        by by rewrite <- app_assoc.
      destruct (datetime_leb (timestamp e) (timestamp best)) eqn:Hle.
      + apply IH.
        * apply in_app_iff. by left.
        * apply Forall_app. split; [done|]. by constructor.
      + apply IH.
        * apply in_app_iff. right. by left.
        * apply Forall_app. split.
          -- eapply Forall_impl; [exact Hall|]. intros e' He'. simpl in He'.
             unfold datetime_leb in *.
             eapply lex_leb_trans; [exact He'|]. by apply lex_leb_total.
          -- constructor; [|done]. apply lex_leb_refl. }
  apply (G [first] first).
  - by left.
  - constructor; [|done]. apply lex_leb_refl.
Qed.

(** X13. On a non-empty view [last_dose_time] measures from the latest
    timestamp of the view: the result is the clock reading minus the
    timestamp of an entry of the view that no entry of the view is later
    than, whatever the order of the entries. *)
Theorem last_dose_time_latest (now : datetime) (u : User) :
  filtered_entries u <> [] ->
  exists e,
    In e (filtered_entries u)
    /\ Forall (fun e' => datetime_leb (timestamp e') (timestamp e) = true)
              (filtered_entries u)
    /\ last_dose_time now u = Some (datetime_sub now (timestamp e)).
Proof.
  intros Hne. unfold last_dose_time.
  destruct (filtered_entries u) as [|first others]; [done|].
  destruct (max_by_timestamp_latest first others) as [Hin Hall].
  by exists (max_by_timestamp first others).
Qed.

Lemma last_dose_time_latest_witness :
  let early := Build_DoseEntry "lsd" fzero "oral" (year_start 2024) "mg" in
  let late := Build_DoseEntry "lsd" fzero "oral" (year_end 2024) "mg" in
  exists e,
    In e [late; early]
    /\ last_dose_time (year_start 2025) (Build_User "sernyl" [] [late; early])
       = Some (datetime_sub (year_start 2025) (timestamp e)).
Proof.
  intros early late.
  destruct (last_dose_time_latest (year_start 2025)
              (Build_User "sernyl" [] [late; early]))
    as (e & Hin & _ & H); [discriminate|].
  exists e. by split.
Defined.

End LastDose.

(** ** What the parser lets through *)

Section Stripping.

Implicit Types (w lead trail : str).

Lemma lstrip_lead lead w : blank lead -> lstrip (lead ++ w) = lstrip w.
Proof. induction 1 as [|c lead Hc _ IH]; simpl; [done|]. by rewrite Hc. Qed.

Lemma rstrip_trail w trail : blank trail -> rstrip (w ++ trail) = rstrip w.
Proof.
  intros H. unfold rstrip. rewrite rev_app_distr, lstrip_lead; [done|].
  by apply Forall_rev.
Qed.

Lemma strip_padding lead w trail :
  blank lead -> blank trail -> strip (lead ++ w ++ trail) = strip w.
Proof.
  intros Hlead Htrail. unfold strip. rewrite lstrip_lead by done.
  induction w as [|c w IH]; simpl.
  - rewrite <- (app_nil_r trail), lstrip_lead by done. done.
  - destruct (is_space c); [done|].
    by apply (rstrip_trail (c :: w) trail).
Qed.

Lemma lstrip_stops w : stops is_space (lstrip w).
Proof.
  induction w as [|c w IH]; simpl; [done|].
  by destruct (is_space c) eqn:Hc.
Qed.

Lemma strip_stops_end w : stops is_space (rev (strip w)).
Proof.
  unfold strip, rstrip. rewrite rev_involutive. apply lstrip_stops.
Qed.

End Stripping.

(** X14. White space around a dose string does not count: a string padded
    with white space on either side is parsed, and so logged or rejected,
    exactly as the string without the padding. *)
Theorem log_dose_string_ignores_padding
    (now : datetime) (s : string) (lead trail : str) (u : User) :
  blank lead -> blank trail ->
  parse_dose_string (text (lead ++ chars s ++ trail)) = parse_dose_string s
  /\ log_dose_string now (text (lead ++ chars s ++ trail)) u
     = log_dose_string now s u.
Proof.
  intros Hlead Htrail.
  assert (H : parse_dose_string (text (lead ++ chars s ++ trail))
              = parse_dose_string s).
  { unfold parse_dose_string. by rewrite chars_text, strip_padding. }
  split; [done|]. unfold log_dose_string, log_dose_string_try. by rewrite H.
Qed.

Lemma log_dose_string_ignores_padding_witness :
  log_dose_string noon "  @ate 30mg adderall " nobody
  = log_dose_string noon "@ate 30mg adderall" nobody.
Proof.
  apply (log_dose_string_ignores_padding noon "@ate 30mg adderall"
           (chars "  ") (chars " ") nobody); repeat constructor.
Defined.

Section Shapes.

Implicit Types (r : regex) (w : str).

Lemma lang_plus p w : lang (Plus p) w -> run_of p w.
Proof.
  intros (w1 & w2 & -> & (c & -> & Hc) & Hw2). split; [done|].
  by constructor.
Qed.

Lemma lang_unit w : lang unit_re w -> unit_token w.
Proof. unfold unit_token. simpl. intros [[[->| ->]| ->]| ->]; auto. Qed.

(** What a word of each pattern looks like. *)
Lemma lang_standard w :
  lang standard_pattern w ->
  exists txt u ws1 sub ws2 rt, standard_shape w txt u ws1 sub ws2 rt.
Proof.
  intros (w7 & w8 & -> & (w6 & rt & -> & (w5 & ws2 & -> & (w4 & sub & ->
    & (w3 & ws1 & -> & (w2 & u & -> & (w1 & txt & -> & -> & Ltxt) & Lu)
    & Lws1) & Lsub) & Lws2) & Lrt) & ->).
  exists txt, u, ws1, sub, ws2, rt. unfold standard_shape.
  rewrite app_nil_r, app_nil_l, <- !app_assoc.
  split_and!; [done|by apply amount_re_numeral|by apply lang_unit
              |by apply lang_plus..].
Qed.

Lemma lang_verb w :
  lang verb_pattern w ->
  exists vb ws1 txt u ws2 sub, verb_shape w vb ws1 txt u ws2 sub.
Proof.
  intros (w7 & w8 & -> & (w6 & sub & -> & (w5 & ws2 & -> & (w4 & u & ->
    & (w3 & txt & -> & (w2 & ws1 & -> & (w1 & v & -> & ->
    & (at_ & vb & -> & -> & Lvb)) & Lws1) & Ltxt) & Lu) & Lws2) & Lsub)
    & ->).
  exists vb, ws1, txt, u, ws2, sub. unfold verb_shape.
  rewrite app_nil_r, app_nil_l, <- !app_assoc.
  split_and!; [done|by apply lang_plus|by apply lang_plus
              |by apply amount_re_numeral|by apply lang_unit
              |by apply lang_plus|by apply lang_plus].
Qed.

(** A pattern that ends with the end-of-string anchor takes the whole of a
    subject that does not end with white space. *)
Lemma re_match_whole r subject m :
  re_match (Cat r Eol) subject = Some m ->
  stops is_space (rev subject) -> lang (Cat r Eol) subject.
Proof.
  intros [cur' Hin]%re_match_first Hend.
  pose proof (exec_sound _ _ _ _ _ Hin) as (w & E & _ & L).
  simpl in Hin. apply in_flat_map in Hin as ([c1 m1] & _ & Hin).
  simpl in Hin, E.
  destruct (ahead c1) as [|c [|c' t]] eqn:E1; simpl in Hin; try done.
  - destruct Hin as [[= <- <-]|[]]. rewrite E1, app_nil_r in E. by subst.
  - destruct (Ascii.eqb_spec c newline) as [->|]; [|done].
    destruct Hin as [[= <- <-]|[]]. rewrite E1 in E. subst subject.
    rewrite rev_app_distr in Hend. by simpl in Hend.
Qed.

End Shapes.

Section Converse.

(** Where an appended entry comes from. *)
Lemma appended_entry_tokens now s u e :
  fst (log_dose_string now s u) = appended u e ->
  (exists txt w ws1 sub ws2 rt,
     standard_shape (strip (chars s)) txt w ws1 sub ws2 rt
     /\ owns (route e) (text rt) /\ substance e = text (lower sub))
  \/ (exists vb ws1 txt w ws2 sub,
        verb_shape (strip (chars s)) vb ws1 txt w ws2 sub
        /\ owns (route e) (text (chars "@" ++ vb))
        /\ substance e = text (lower sub)).
Proof.
  intros (x & un & sb & rv & canon & Hp & Hc & ->)%log_dose_string_appended.
  cbn [route substance]. apply lookup_owner in Hc.
  pose proof (strip_stops_end (chars s)) as Hend.
  unfold parse_dose_string in Hp.
  destruct (re_match standard_pattern _) as [m|] eqn:Hstd.
  - left. apply re_match_whole in Hstd as L; [|done].
    apply lang_standard in L as (txt & w & ws1 & sub & ws2 & rt & Hshape).
    exists txt, w, ws1, sub, ws2, rt. split; [done|].
    destruct Hshape as (E & (ds & k & Hnum) & Hw & H1 & H2 & H3 & H4).
    pose proof (standard_pattern_groups txt ds k w ws1 sub ws2 rt
                  Hnum Hw H1 H2 H3 H4) as G.
    rewrite E in Hstd. rewrite Hstd in G.
    cbn [fmap option_fmap option_map] in G, Hp.
    apply (inj Some) in G. rewrite G in Hp.
    destruct (ROUTE_ALIASES !! text rt); [|done].
    destruct (py_float txt); [|done].
    by injection Hp as _ _ <- <-.
  - cbn [fmap option_fmap option_map] in Hp.
    destruct (re_match verb_pattern _) as [m|] eqn:Hvb; [|done].
    right. apply re_match_whole in Hvb as L; [|done].
    apply lang_verb in L as (vb & ws1 & txt & w & ws2 & sub & Hshape).
    exists vb, ws1, txt, w, ws2, sub. split; [done|].
    destruct Hshape as (E & H1 & H2 & (ds & k & Hnum) & Hw & H3 & H4).
    pose proof (verb_pattern_groups vb ws1 txt ds k w ws2 sub
                  H1 H2 Hnum Hw H3 H4) as G.
    rewrite E in Hvb. rewrite Hvb in G.
    cbn [fmap option_fmap option_map] in G, Hp.
    apply (inj Some) in G. rewrite G in Hp.
    destruct (ROUTE_ALIASES !! text (chars "@" ++ vb)); [|done].
    destruct (py_float txt); [|done].
    by injection Hp as _ _ <- <-.
Qed.

(** X15. Only strings of the two grammars are logged: when
    [log_dose_string] appends an entry, the stripped string is a numeral
    with a unit, a substance token and a route token that is a declared
    alias, or an at-sign verb that is a declared alias followed by a
    numeral with a unit and a substance token; the entry's route is the
    owner of that alias and its substance the substance token
    lower-cased. *)
Theorem logged_strings_fit_a_grammar
    (now : datetime) (s : string) (u : User) (e : DoseEntry) :
  fst (log_dose_string now s u) = appended u e ->
  (exists txt w ws1 sub ws2 rt,
     standard_shape (strip (chars s)) txt w ws1 sub ws2 rt
     /\ owns (route e) (text rt) /\ substance e = text (lower sub))
  \/ (exists vb ws1 txt w ws2 sub,
        verb_shape (strip (chars s)) vb ws1 txt w ws2 sub
        /\ owns (route e) (text (chars "@" ++ vb))
        /\ substance e = text (lower sub)).
Proof. apply appended_entry_tokens. Qed.

Lemma logged_strings_fit_a_grammar_witness :
  exists vb ws1 txt w ws2 sub,
    verb_shape (chars "@ate 30mg adderall") vb ws1 txt w ws2 sub
    /\ owns "oral" (text (chars "@" ++ vb)).
Proof.
  destruct (logged_strings_fit_a_grammar noon "@ate 30mg adderall" nobody
              (Build_DoseEntry "adderall" (float_of_int 30) "oral" noon "mg"))
    as [(txt & w & ws1 & sub & ws2 & rt & (E & (ds & k & Hn) & _) & _)
       |(vb & ws1 & txt & w & ws2 & sub & Hshape & Howns & _)].
  - vm_compute. reflexivity.
  - exfalso. apply numeral_run in Hn as (c & t & -> & Hc).
    vm_compute in E. injection E as <-. discriminate Hc.
  - exists vb, ws1, txt, w, ws2, sub. split; [exact Hshape|exact Howns].
Defined.

Lemma lower_alpha_hyphen c :
  is_alpha_hyphen c = true -> is_lower_hyphen (lower_char c) = true.
Proof. destruct c as [[] [] [] [] [] [] [] []]; by vm_compute. Qed.

(** X16. A substance stored by [log_dose_string] is never empty and holds
    lower-case ASCII letters and hyphens only. *)
Theorem logged_substance_lower_case
    (now : datetime) (s : string) (u : User) (e : DoseEntry) :
  fst (log_dose_string now s u) = appended u e ->
  substance e <> ""%string
  /\ Forall (fun c => is_lower_hyphen c = true) (chars (substance e)).
Proof.
  intros H.
  assert (G : exists sub, run_of is_alpha_hyphen sub
                          /\ substance e = text (lower sub)).
  { destruct (appended_entry_tokens now s u e H)
      as [(txt & w & ws1 & sub & ws2 & rt & Hs & _ & E)
         |(vb & ws1 & txt & w & ws2 & sub & Hs & _ & E)];
      exists sub; (split; [|done]).
    - apply Hs.
    - apply Hs. }
  destruct G as (sub & [Hne Hall] & ->). split.
  - destruct sub as [|c sub]; [done|]. discriminate.
  - rewrite chars_text. unfold lower. apply Forall_map.
    eapply Forall_impl; [exact Hall|]. apply lower_alpha_hyphen.
Qed.

Lemma logged_substance_lower_case_witness :
  Forall (fun c => is_lower_hyphen c = true) (chars "lsd").
Proof.
  apply (logged_substance_lower_case noon "0.4ug LSD sublingual" nobody
           (Build_DoseEntry "lsd" (fdiv (S754_finite false 7205759403792794 (-54)) (float_of_int 1000))
              "sublingual" noon "mg")).
  vm_compute. reflexivity.
Defined.

End Converse.

(** ** Odds and ends *)

(** X17. With an odd number of entries in view, [median_dose] returns the
    amount of one of them: nothing is averaged. *)
Theorem median_dose_odd_is_an_amount (u : User) :
  (length (filtered_entries u) mod 2 = 1)%nat ->
  In (median_dose u) (amounts (filtered_entries u)).
Proof.
  intros Hodd. rewrite median_dose_amounts.
  assert (Hlen : length (amounts (filtered_entries u))
                 = length (filtered_entries u)) by apply length_map.
  destruct (amounts (filtered_entries u)) as [|x xs] eqn:E.
  - simpl in Hlen. rewrite <- Hlen in Hodd. done.
  - cbv zeta. rewrite sorted_length, Hlen, Hodd. simpl Nat.eqb. cbv iota.
    eapply Permutation_in; [symmetry; apply sorted_perm|].
    apply nth_In. rewrite sorted_length, Hlen.
    destruct (length (filtered_entries u)); [discriminate Hodd|].
    apply Nat.div_lt; lia.
Qed.

Lemma median_dose_odd_is_an_amount_witness :
  let view := [dose "lsd" 30 "oral"; dose "lsd" 10 "oral"; dose "lsd" 20 "oral"] in
  In (median_dose (Build_User "sernyl" view view)) (amounts view).
Proof.
  intros view.
  apply (median_dose_odd_is_an_amount (Build_User "sernyl" view view)).
  reflexivity.
Defined.

Section Exclusive.

Lemma standard_shape_digit w txt u ws1 sub ws2 rt :
  standard_shape w txt u ws1 sub ws2 rt ->
  exists c t, w = c :: t /\ is_digit c = true.
Proof.
  intros (-> & (ds & k & Hnum) & _).
  apply numeral_run in Hnum as (c & t & -> & Hc). by exists c; eexists.
Qed.

(** X19. The two grammars are mutually exclusive: no subject is matched by
    both patterns, since one starts with a digit and the other with an
    at-sign; the order in which [parse_dose_string] tries them decides
    nothing. *)
Theorem patterns_exclusive (subject : str) :
  re_match standard_pattern subject = None
  \/ re_match verb_pattern subject = None.
Proof.
  destruct (re_match standard_pattern subject) as [m1|] eqn:H1; [|by left].
  destruct (re_match verb_pattern subject) as [m2|] eqn:H2; [|by right].
  exfalso.
  apply re_match_first in H1 as [c1 H1]. apply re_match_first in H2 as [c2 H2].
  apply exec_sound in H1 as (w1 & E1 & _ & L1).
  apply exec_sound in H2 as (w2 & E2 & _ & L2).
  apply lang_standard in L1 as (txt & u & ws1 & sub & ws2 & rt & Hs).
  apply standard_shape_digit in Hs as (c & t & -> & Hc).
  apply lang_verb in L2 as (vb & ws1' & txt' & u' & ws2' & sub' & Hv).
  destruct Hv as (-> & _). simpl in E1, E2. rewrite E1 in E2.
  injection E2 as -> _. discriminate Hc.
Qed.

End Exclusive.
